(** * Mesh, muscle nodes, Voronoi pass and sprite swarm of the spasm sketches

    Shallow embedding of the p5.js sketches [src/unnamed/part_000],
    [src/sperm.js] and [src/sperm2.js].  JavaScript numbers are modelled as
    real numbers (exact arithmetic, [sqrt] for [dist]); arrays as Rocq lists
    with stdpp's lookup [!!] and in-place update [<[i := v]>]; an uncaught
    JavaScript exception as the [Raised] outcome carrying the store as it
    was when the exception was thrown (earlier writes are not rolled back). *)

From stdpp Require Import base list strings.
From Stdlib Require Import Reals Lra Psatz.
From Stdlib Require Ascii.

(** ** JavaScript / p5.js runtime *)

Module Js.

(** Result of running a piece of sketch code on a store: it either
    finishes, or throws (a [TypeError] on [undefined]) after having
    performed its earlier writes. *)
Inductive outcome (S : Type) : Type :=
| Done : S -> outcome S
| Raised : S -> outcome S.
Arguments Done {S} _.
Arguments Raised {S} _.

Definition bind {S T} (o : outcome S) (k : S -> outcome T) (fallback : S -> T)
  : outcome T :=
  match o with
  | Done s => k s
  | Raised s => Raised (fallback s)
  end.

Definition is_done {S} (o : outcome S) : bool :=
  match o with Done _ => true | Raised _ => false end.

Definition store {S} (o : outcome S) : S :=
  match o with Done s => s | Raised s => s end.

(** Strict comparison [a < b] of two numbers, as a boolean. *)
Definition ltb (a b : R) : bool := if Rlt_dec a b then true else false.

(** p5's [dist(x1, y1, x2, y2)]. *)
Definition dist (x1 y1 x2 y2 : R) : R :=
  sqrt ((x2 - x1) * (x2 - x1) + (y2 - y1) * (y2 - y1)).

(** p5's [map(v, start1, stop1, start2, stop2)]. *)
Definition map_range (v start1 stop1 start2 stop2 : R) : R :=
  (v - start1) / (stop1 - start1) * (stop2 - start2) + start2.

(** p5's [random(n)] and [random(lo, hi)], where [u] is the value of
    [Math.random()] drawn for this call (in [[0, 1)]). *)
Definition random1 (u n : R) : R := u * n.

Definition random2 (u lo hi : R) : R :=
  if ltb hi lo then u * (lo - hi) + hi else u * (hi - lo) + lo.

(** [Math.floor]. *)
Definition floor (r : R) : Z := Int_part r.

End Js.

Import Js.

(** ** Mesh physics ([draw], "Mesh physics" pass) *)

Module GridPoint.
Record t := mk { x : R; y : R; vx : R; vy : R; rest_x : R; rest_y : R }.
End GridPoint.

Module Node.
Record t := mk { x : R; y : R; force : R }.
End Node.

Module Mesh.
Local Open Scope R_scope.

(** One muscle node's contribution to [(fx, fy)], the body of
    [for (let node of nodes)]. *)
Definition pull (p : GridPoint.t) (acc : R * R) (node : Node.t) : R * R :=
  let '(fx, fy) := acc in
  let d := dist (GridPoint.x p) (GridPoint.y p) (Node.x node) (Node.y node) in
  if ltb 0 (Node.force node) && ltb d 180 then
    let strength := 3 * Node.force node * (180 - d) / 180 in
    (fx + (Node.x node - GridPoint.x p) * strength * 0.01,
     fy + (Node.y node - GridPoint.y p) * strength * 0.01)
  else (fx, fy).

(** The body of the mesh loop for one point [p = mesh[y][x]]; [k_rest] is
    0.08 in part_000 and 0.04 in sperm.js / sperm2.js. *)
Definition step_point (k_rest : R) (nodes : list Node.t) (p : GridPoint.t)
  : GridPoint.t :=
  let fx0 := (GridPoint.rest_x p - GridPoint.x p) * k_rest in
  let fy0 := (GridPoint.rest_y p - GridPoint.y p) * k_rest in
  let '(fx, fy) := fold_left (pull p) nodes (fx0, fy0) in
  let vx' := (GridPoint.vx p + fx) * 0.88 in
  let vy' := (GridPoint.vy p + fy) * 0.88 in
  GridPoint.mk (GridPoint.x p + vx') (GridPoint.y p + vy') vx' vy'
    (GridPoint.rest_x p) (GridPoint.rest_y p).

End Mesh.

(** The whole mesh pass: [for (y < rows_) for (x < cols)] updating
    [mesh[y][x]] in place.  Reading [mesh[y]] or [mesh[y][x]] out of range
    gives [undefined], and the following field access throws. *)
Module MeshPass.
Local Open Scope R_scope.

Abbreviation mesh := (list (list GridPoint.t)).

Definition rows_ : nat := 14.
Definition cols : nat := 20.

Section Pass.
Variable k_rest : R.
Variable nodes : list Node.t.

Definition update_at (m : mesh) (idx : nat * nat) : outcome mesh :=
  let '(r, c) := idx in
  match m !! r with
  | None => Raised m
  | Some row =>
      match row !! c with
      | None => Raised m
      | Some p => Done (<[r := <[c := Mesh.step_point k_rest nodes p]> row]> m)
      end
  end.

(** Sequential in-place update of the points listed in [order]. *)
Fixpoint run_order (order : list (nat * nat)) (m : mesh) : outcome mesh :=
  match order with
  | [] => Done m
  | i :: rest =>
      match update_at m i with
      | Done m' => run_order rest m'
      | Raised m' => Raised m'
      end
  end.

(** The order of the two nested [for] loops of the source. *)
Definition row_major (nrows ncols : nat) : list (nat * nat) :=
  seq 0 nrows ≫= (fun yy => (fun xx => (yy, xx)) <$> seq 0 ncols).

(** [step()]: one execution of the mesh pass of [draw]. *)
Definition mesh_step (m : mesh) : outcome mesh :=
  run_order (row_major rows_ cols) m.

(** [n] successive frames of the mesh pass. *)
Fixpoint steps (n : nat) (m : mesh) : outcome mesh :=
  match n with
  | O => Done m
  | S n' =>
      match steps n' m with
      | Done m' => mesh_step m'
      | Raised m' => Raised m'
      end
  end.

(** Pointwise simultaneous update of all points. *)
Definition pointwise (m : mesh) : mesh :=
  (fun row : list GridPoint.t => Mesh.step_point k_rest nodes <$> row) <$> m.
End Pass.

(** Every (row, column) position of a possibly ragged mesh, row by row. *)
Fixpoint indices_from {A} (r : nat) (m : list (list A)) : list (nat * nat) :=
  match m with
  | [] => []
  | row :: m' => ((fun c => (r, c)) <$> seq 0 (length row)) ++ indices_from (S r) m'
  end.

Definition indices {A} (m : list (list A)) : list (nat * nat) := indices_from 0 m.

(** The mesh after the points in [S] have been stepped. *)
Definition partial (k_rest : R) (nodes : list Node.t) (S : list (nat * nat))
  (m : mesh) : mesh :=
  imap (fun r row =>
    imap (fun c p => if decide ((r, c) ∈ S) then Mesh.step_point k_rest nodes p else p)
      row) m.

End MeshPass.

(** The per-point force model and integration as the specification words
    them (section 4.2), to be compared with [Mesh.step_point]. *)
Module MeshSpec.
Local Open Scope R_scope.

Fixpoint sumR (l : list R) : R :=
  match l with [] => 0 | a :: l' => a + sumR l' end.

(** "currently active ... within a fixed capture radius R = 180". *)
Definition captures (p : GridPoint.t) (node : Node.t) : bool :=
  ltb 0 (Node.force node)
  && ltb (dist (GridPoint.x p) (GridPoint.y p) (Node.x node) (Node.y node)) 180.

Definition pull_gain (p : GridPoint.t) (node : Node.t) : R :=
  let d := dist (GridPoint.x p) (GridPoint.y p) (Node.x node) (Node.y node) in
  3 * Node.force node * (180 - d) / 180.

Definition total_force_x (k_rest : R) (nodes : list Node.t) (p : GridPoint.t) : R :=
  k_rest * (GridPoint.rest_x p - GridPoint.x p)
  + sumR (map (fun node => (Node.x node - GridPoint.x p) * pull_gain p node * 0.01)
            (List.filter (captures p) nodes)).

Definition total_force_y (k_rest : R) (nodes : list Node.t) (p : GridPoint.t) : R :=
  k_rest * (GridPoint.rest_y p - GridPoint.y p)
  + sumR (map (fun node => (Node.y node - GridPoint.y p) * pull_gain p node * 0.01)
            (List.filter (captures p) nodes)).

Definition spec_step (k_rest : R) (nodes : list Node.t) (p : GridPoint.t) : GridPoint.t :=
  let vx' := (GridPoint.vx p + total_force_x k_rest nodes p) * 0.88 in
  let vy' := (GridPoint.vy p + total_force_y k_rest nodes p) * 0.88 in
  GridPoint.mk (GridPoint.x p + vx') (GridPoint.y p + vy') vx' vy'
    (GridPoint.rest_x p) (GridPoint.rest_y p).

(** Distance of a grid point to its rest position. *)
Definition rest_dist (p : GridPoint.t) : R :=
  dist (GridPoint.x p) (GridPoint.y p) (GridPoint.rest_x p) (GridPoint.rest_y p).

(** Damped-spring energy of a point on one axis, for displacement [e] and
    velocity [v]: the quadratic form that the update with damping 0.88 and
    stiffness [k_rest] scales by exactly 0.88. *)
Definition spring_beta (k_rest : R) : R := (0.12 - 0.88 * k_rest) / 1.76.

Definition axis_energy (k_rest e v : R) : R :=
  k_rest * e * e + 2 * spring_beta k_rest * e * v + v * v.

Definition energy (k_rest : R) (p : GridPoint.t) : R :=
  axis_energy k_rest (GridPoint.x p - GridPoint.rest_x p) (GridPoint.vx p)
  + axis_energy k_rest (GridPoint.y p - GridPoint.rest_y p) (GridPoint.vy p).

(** A point displaced by 100 from its rest position at the origin. *)
Definition displaced_point : GridPoint.t := GridPoint.mk 100 0 0 0 0 0.

(** The test scenario of section 8: one active node at the origin and a
    point resting at (100, 0). *)
Definition scenario_node : Node.t := Node.mk 0 0 1.
Definition scenario_point : GridPoint.t := GridPoint.mk 100 0 0 0 100 0.
End MeshSpec.

(** ** Voronoi classification pass of [draw] (part_000) *)
Module Voronoi.
Local Open Scope R_scope.

(** [nodes.map(n => ({x: n.x, y: n.y}))] *)
Definition voronoiSites (nodes : list Node.t) : list (R * R) :=
  map (fun n => (Node.x n, Node.y n)) nodes.

Definition step : Z := 16.

(** [for (let v = lo; v < hi; v += st)]: at most [fuel] iterations. *)
Fixpoint zrange (fuel : nat) (v hi st : Z) : list Z :=
  match fuel with
  | O => []
  | S f => if (v <? hi)%Z then v :: zrange f (v + st)%Z hi st else []
  end.

Definition xs : list Z := zrange 800 (-400) 400 step.
Definition ys : list Z := zrange 500 (-250) 250 step.

(** The sample points in the order of the two nested loops. *)
Definition samples : list (Z * Z) := xs ≫= (fun sx => (fun sy => (sx, sy)) <$> ys).

(** The inner [for (let i = 0; i < voronoiSites.length; i++)] loop. *)
Fixpoint scan (sx sy : R) (sites : list (R * R)) (i : Z) (minD : R) (minIdx : Z) : Z :=
  match sites with
  | [] => minIdx
  | (x, y) :: rest =>
      let d := dist sx sy x y in
      if ltb d minD then scan sx sy rest (i + 1)%Z d i
      else scan sx sy rest (i + 1)%Z minD minIdx
  end.

(** [minIdx] for one sample, starting from [minD = 1e9, minIdx = -1]. *)
Definition classify (sites : list (R * R)) (s : Z * Z) : Z :=
  scan (IZR s.1) (IZR s.2) sites 0 1e9 (-1).

(** [cellMap], as the list of its keys with their arrays, in the order
    the keys were created. *)
Definition cell_map := list (Z * list (Z * Z)).


(** [if (!cellMap[k]) cellMap[k] = []; cellMap[k].push(pt);] *)
Fixpoint push (k : Z) (pt : Z * Z) (cm : cell_map) : cell_map :=
  match cm with
  | [] => [(k, [pt])]
  | (k', l) :: rest =>
      if (k =? k')%Z then (k', l ++ [pt]) :: rest else (k', l) :: push k pt rest
  end.

Definition partition (sites : list (R * R)) : cell_map :=
  fold_left (fun cm s => push (classify sites s) s cm) samples [].


End Voronoi.

(** ** JavaScript strings and [String.prototype.toLowerCase] *)
Module JsString.
Local Open Scope Z_scope.

(** A JavaScript string, read as its sequence of code points (the view
    [StringToCodePoints] of the ECMAScript specification, on which
    [toLowerCase] is defined). *)
Definition jstr := list Z.

(** A string literal of the sketches (all of them ASCII). *)
Definition js (s : string) : jstr :=
  (fun a => Z.of_nat (Ascii.nat_of_ascii a)) <$> String.list_ascii_of_string s.

Definition jstr_eqb (a b : jstr) : bool := bool_decide (a = b).

(** The simple lowercase mappings of the Unicode Character Database
    (version 14.0), as runs [(first, count, stride, delta)]: the code
    points [first + i * stride] for [i < count] are mapped to themselves
    plus [delta].  U+0130 (full mapping to two code points) and U+03A3
    (context dependent) are handled apart. *)
Definition lower_runs : list (Z * Z * Z * Z) := [
   (65, 26, 1, 32); (192, 23, 1, 32); (216, 7, 1, 32); (256, 24, 2, 1); (306, 3, 2, 1);
   (313, 8, 2, 1); (330, 23, 2, 1); (376, 1, 1, (-121)); (377, 3, 2, 1); (385, 1, 1, 210);
   (386, 2, 2, 1); (390, 1, 1, 206); (391, 1, 1, 1); (393, 2, 1, 205); (395, 1, 1, 1);
   (398, 1, 1, 79); (399, 1, 1, 202); (400, 1, 1, 203); (401, 1, 1, 1); (403, 1, 1, 205);
   (404, 1, 1, 207); (406, 1, 1, 211); (407, 1, 1, 209); (408, 1, 1, 1); (412, 1, 1, 211);
   (413, 1, 1, 213); (415, 1, 1, 214); (416, 3, 2, 1); (422, 1, 1, 218); (423, 1, 1, 1);
   (425, 1, 1, 218); (428, 1, 1, 1); (430, 1, 1, 218); (431, 1, 1, 1); (433, 2, 1, 217);
   (435, 2, 2, 1); (439, 1, 1, 219); (440, 1, 1, 1); (444, 1, 1, 1); (452, 1, 1, 2);
   (453, 1, 1, 1); (455, 1, 1, 2); (456, 1, 1, 1); (458, 1, 1, 2); (459, 9, 2, 1);
   (478, 9, 2, 1); (497, 1, 1, 2); (498, 2, 2, 1); (502, 1, 1, (-97)); (503, 1, 1, (-56));
   (504, 20, 2, 1); (544, 1, 1, (-130)); (546, 9, 2, 1); (570, 1, 1, 10795); (571, 1, 1, 1);
   (573, 1, 1, (-163)); (574, 1, 1, 10792); (577, 1, 1, 1); (579, 1, 1, (-195)); (580, 1, 1, 69);
   (581, 1, 1, 71); (582, 5, 2, 1); (880, 2, 2, 1); (886, 1, 1, 1); (895, 1, 1, 116);
   (902, 1, 1, 38); (904, 3, 1, 37); (908, 1, 1, 64); (910, 2, 1, 63); (913, 17, 1, 32);
   (932, 8, 1, 32); (975, 1, 1, 8); (984, 12, 2, 1); (1012, 1, 1, (-60)); (1015, 1, 1, 1);
   (1017, 1, 1, (-7)); (1018, 1, 1, 1); (1021, 3, 1, (-130)); (1024, 16, 1, 80); (1040, 32, 1, 32);
   (1120, 17, 2, 1); (1162, 27, 2, 1); (1216, 1, 1, 15); (1217, 7, 2, 1); (1232, 48, 2, 1);
   (1329, 38, 1, 48); (4256, 38, 1, 7264); (4295, 1, 1, 7264); (4301, 1, 1, 7264); (5024, 80, 1, 38864);
   (5104, 6, 1, 8); (7312, 43, 1, (-3008)); (7357, 3, 1, (-3008)); (7680, 75, 2, 1); (7838, 1, 1, (-7615));
   (7840, 48, 2, 1); (7944, 8, 1, (-8)); (7960, 6, 1, (-8)); (7976, 8, 1, (-8)); (7992, 8, 1, (-8));
   (8008, 6, 1, (-8)); (8025, 4, 2, (-8)); (8040, 8, 1, (-8)); (8072, 8, 1, (-8)); (8088, 8, 1, (-8));
   (8104, 8, 1, (-8)); (8120, 2, 1, (-8)); (8122, 2, 1, (-74)); (8124, 1, 1, (-9)); (8136, 4, 1, (-86));
   (8140, 1, 1, (-9)); (8152, 2, 1, (-8)); (8154, 2, 1, (-100)); (8168, 2, 1, (-8)); (8170, 2, 1, (-112));
   (8172, 1, 1, (-7)); (8184, 2, 1, (-128)); (8186, 2, 1, (-126)); (8188, 1, 1, (-9)); (8486, 1, 1, (-7517));
   (8490, 1, 1, (-8383)); (8491, 1, 1, (-8262)); (8498, 1, 1, 28); (8544, 16, 1, 16); (8579, 1, 1, 1);
   (9398, 26, 1, 26); (11264, 48, 1, 48); (11360, 1, 1, 1); (11362, 1, 1, (-10743)); (11363, 1, 1, (-3814));
   (11364, 1, 1, (-10727)); (11367, 3, 2, 1); (11373, 1, 1, (-10780)); (11374, 1, 1, (-10749)); (11375, 1, 1, (-10783));
   (11376, 1, 1, (-10782)); (11378, 1, 1, 1); (11381, 1, 1, 1); (11390, 2, 1, (-10815)); (11392, 50, 2, 1);
   (11499, 2, 2, 1); (11506, 1, 1, 1); (42560, 23, 2, 1); (42624, 14, 2, 1); (42786, 7, 2, 1);
   (42802, 31, 2, 1); (42873, 2, 2, 1); (42877, 1, 1, (-35332)); (42878, 5, 2, 1); (42891, 1, 1, 1);
   (42893, 1, 1, (-42280)); (42896, 2, 2, 1); (42902, 10, 2, 1); (42922, 1, 1, (-42308)); (42923, 1, 1, (-42319));
   (42924, 1, 1, (-42315)); (42925, 1, 1, (-42305)); (42926, 1, 1, (-42308)); (42928, 1, 1, (-42258)); (42929, 1, 1, (-42282));
   (42930, 1, 1, (-42261)); (42931, 1, 1, 928); (42932, 8, 2, 1); (42948, 1, 1, (-48)); (42949, 1, 1, (-42307));
   (42950, 1, 1, (-35384)); (42951, 2, 2, 1); (42960, 1, 1, 1); (42966, 2, 2, 1); (42997, 1, 1, 1);
   (65313, 26, 1, 32); (66560, 40, 1, 40); (66736, 36, 1, 40); (66928, 11, 1, 39); (66940, 15, 1, 39);
   (66956, 7, 1, 39); (66964, 2, 1, 39); (68736, 51, 1, 64); (71840, 32, 1, 32); (93760, 32, 1, 32);
   (125184, 34, 1, 34)].

Definition in_run (c : Z) (r : Z * Z * Z * Z) : bool :=
  let '(first, count, stride, _) := r in
  (first <=? c) && ((c - first) mod stride =? 0) && ((c - first) / stride <? count).

(** The lowercase mapping of a code point other than U+03A3. *)
Definition lower_cp (c : Z) : list Z :=
  if c =? 304 then [105; 775]
  else match find (in_run c) lower_runs with
       | Some (_, _, _, delta) => [c + delta]
       | None => [c]
       end.

(** Code points that are cased and not case-ignorable. *)
Definition cased_ranges : list (Z * Z) := [
   (65, 90); (97, 122); (170, 170); (181, 181); (186, 186); (192, 214); (216, 246);
   (248, 442); (444, 447); (452, 659); (661, 687); (880, 883); (886, 887); (891, 893);
   (895, 895); (902, 902); (904, 906); (908, 908); (910, 929); (931, 1013); (1015, 1153);
   (1162, 1327); (1329, 1366); (1376, 1416); (4256, 4293); (4295, 4295); (4301, 4301); (4304, 4346);
   (4349, 4351); (5024, 5109); (5112, 5117); (7296, 7304); (7312, 7354); (7357, 7359); (7424, 7467);
   (7531, 7543); (7545, 7578); (7680, 7957); (7960, 7965); (7968, 8005); (8008, 8013); (8016, 8023);
   (8025, 8025); (8027, 8027); (8029, 8029); (8031, 8061); (8064, 8116); (8118, 8124); (8126, 8126);
   (8130, 8132); (8134, 8140); (8144, 8147); (8150, 8155); (8160, 8172); (8178, 8180); (8182, 8188);
   (8450, 8450); (8455, 8455); (8458, 8467); (8469, 8469); (8473, 8477); (8484, 8484); (8486, 8486);
   (8488, 8488); (8490, 8493); (8495, 8500); (8505, 8505); (8508, 8511); (8517, 8521); (8526, 8526);
   (8544, 8575); (8579, 8580); (9398, 9449); (11264, 11387); (11390, 11492); (11499, 11502); (11506, 11507);
   (11520, 11557); (11559, 11559); (11565, 11565); (42560, 42605); (42624, 42651); (42786, 42863); (42865, 42887);
   (42891, 42894); (42896, 42954); (42960, 42961); (42963, 42963); (42965, 42969); (42997, 42998); (43002, 43002);
   (43824, 43866); (43872, 43880); (43888, 43967); (64256, 64262); (64275, 64279); (65313, 65338); (65345, 65370);
   (66560, 66639); (66736, 66771); (66776, 66811); (66928, 66938); (66940, 66954); (66956, 66962); (66964, 66965);
   (66967, 66977); (66979, 66993); (66995, 67001); (67003, 67004); (68736, 68786); (68800, 68850); (71840, 71903);
   (93760, 93823); (119808, 119892); (119894, 119964); (119966, 119967); (119970, 119970); (119973, 119974); (119977, 119980);
   (119982, 119993); (119995, 119995); (119997, 120003); (120005, 120069); (120071, 120074); (120077, 120084); (120086, 120092);
   (120094, 120121); (120123, 120126); (120128, 120132); (120134, 120134); (120138, 120144); (120146, 120485); (120488, 120512);
   (120514, 120538); (120540, 120570); (120572, 120596); (120598, 120628); (120630, 120654); (120656, 120686); (120688, 120712);
   (120714, 120744); (120746, 120770); (120772, 120779); (122624, 122633); (122635, 122654); (125184, 125251); (127280, 127305);
   (127312, 127337); (127344, 127369)].

(** Case-ignorable code points. *)
Definition case_ignorable_ranges : list (Z * Z) := [
   (39, 39); (46, 46); (58, 58); (94, 94); (96, 96); (168, 168); (173, 173);
   (175, 175); (180, 180); (183, 184); (688, 879); (884, 885); (890, 890); (900, 901);
   (903, 903); (1155, 1161); (1369, 1369); (1375, 1375); (1425, 1469); (1471, 1471); (1473, 1474);
   (1476, 1477); (1479, 1479); (1524, 1524); (1536, 1541); (1552, 1562); (1564, 1564); (1600, 1600);
   (1611, 1631); (1648, 1648); (1750, 1757); (1759, 1768); (1770, 1773); (1807, 1807); (1809, 1809);
   (1840, 1866); (1958, 1968); (2027, 2037); (2042, 2042); (2045, 2045); (2070, 2093); (2137, 2139);
   (2184, 2184); (2192, 2193); (2200, 2207); (2249, 2306); (2362, 2362); (2364, 2364); (2369, 2376);
   (2381, 2381); (2385, 2391); (2402, 2403); (2417, 2417); (2433, 2433); (2492, 2492); (2497, 2500);
   (2509, 2509); (2530, 2531); (2558, 2558); (2561, 2562); (2620, 2620); (2625, 2626); (2631, 2632);
   (2635, 2637); (2641, 2641); (2672, 2673); (2677, 2677); (2689, 2690); (2748, 2748); (2753, 2757);
   (2759, 2760); (2765, 2765); (2786, 2787); (2810, 2815); (2817, 2817); (2876, 2876); (2879, 2879);
   (2881, 2884); (2893, 2893); (2901, 2902); (2914, 2915); (2946, 2946); (3008, 3008); (3021, 3021);
   (3072, 3072); (3076, 3076); (3132, 3132); (3134, 3136); (3142, 3144); (3146, 3149); (3157, 3158);
   (3170, 3171); (3201, 3201); (3260, 3260); (3263, 3263); (3270, 3270); (3276, 3277); (3298, 3299);
   (3328, 3329); (3387, 3388); (3393, 3396); (3405, 3405); (3426, 3427); (3457, 3457); (3530, 3530);
   (3538, 3540); (3542, 3542); (3633, 3633); (3636, 3642); (3654, 3662); (3761, 3761); (3764, 3772);
   (3782, 3782); (3784, 3789); (3864, 3865); (3893, 3893); (3895, 3895); (3897, 3897); (3953, 3966);
   (3968, 3972); (3974, 3975); (3981, 3991); (3993, 4028); (4038, 4038); (4141, 4144); (4146, 4151);
   (4153, 4154); (4157, 4158); (4184, 4185); (4190, 4192); (4209, 4212); (4226, 4226); (4229, 4230);
   (4237, 4237); (4253, 4253); (4348, 4348); (4957, 4959); (5906, 5908); (5938, 5939); (5970, 5971);
   (6002, 6003); (6068, 6069); (6071, 6077); (6086, 6086); (6089, 6099); (6103, 6103); (6109, 6109);
   (6155, 6159); (6211, 6211); (6277, 6278); (6313, 6313); (6432, 6434); (6439, 6440); (6450, 6450);
   (6457, 6459); (6679, 6680); (6683, 6683); (6742, 6742); (6744, 6750); (6752, 6752); (6754, 6754);
   (6757, 6764); (6771, 6780); (6783, 6783); (6823, 6823); (6832, 6862); (6912, 6915); (6964, 6964);
   (6966, 6970); (6972, 6972); (6978, 6978); (7019, 7027); (7040, 7041); (7074, 7077); (7080, 7081);
   (7083, 7085); (7142, 7142); (7144, 7145); (7149, 7149); (7151, 7153); (7212, 7219); (7222, 7223);
   (7288, 7293); (7376, 7378); (7380, 7392); (7394, 7400); (7405, 7405); (7412, 7412); (7416, 7417);
   (7468, 7530); (7544, 7544); (7579, 7679); (8125, 8125); (8127, 8129); (8141, 8143); (8157, 8159);
   (8173, 8175); (8189, 8190); (8203, 8207); (8216, 8217); (8228, 8228); (8231, 8231); (8234, 8238);
   (8288, 8292); (8294, 8303); (8305, 8305); (8319, 8319); (8336, 8348); (8400, 8432); (11388, 11389);
   (11503, 11505); (11631, 11631); (11647, 11647); (11744, 11775); (11823, 11823); (12293, 12293); (12330, 12333);
   (12337, 12341); (12347, 12347); (12441, 12446); (12540, 12542); (40981, 40981); (42232, 42237); (42508, 42508);
   (42607, 42610); (42612, 42621); (42623, 42623); (42652, 42655); (42736, 42737); (42752, 42785); (42864, 42864);
   (42888, 42890); (42994, 42996); (43000, 43001); (43010, 43010); (43014, 43014); (43019, 43019); (43045, 43046);
   (43052, 43052); (43204, 43205); (43232, 43249); (43263, 43263); (43302, 43309); (43335, 43345); (43392, 43394);
   (43443, 43443); (43446, 43449); (43452, 43453); (43471, 43471); (43493, 43494); (43561, 43566); (43569, 43570);
   (43573, 43574); (43587, 43587); (43596, 43596); (43632, 43632); (43644, 43644); (43696, 43696); (43698, 43700);
   (43703, 43704); (43710, 43711); (43713, 43713); (43741, 43741); (43756, 43757); (43763, 43764); (43766, 43766);
   (43867, 43871); (43881, 43883); (44005, 44005); (44008, 44008); (44013, 44013); (64286, 64286); (64434, 64450);
   (65024, 65039); (65043, 65043); (65056, 65071); (65106, 65106); (65109, 65109); (65279, 65279); (65287, 65287);
   (65294, 65294); (65306, 65306); (65342, 65342); (65344, 65344); (65392, 65392); (65438, 65439); (65507, 65507);
   (65529, 65531); (66045, 66045); (66272, 66272); (66422, 66426); (67456, 67461); (67463, 67504); (67506, 67514);
   (68097, 68099); (68101, 68102); (68108, 68111); (68152, 68154); (68159, 68159); (68325, 68326); (68900, 68903);
   (69291, 69292); (69446, 69456); (69506, 69509); (69633, 69633); (69688, 69702); (69744, 69744); (69747, 69748);
   (69759, 69761); (69811, 69814); (69817, 69818); (69821, 69821); (69826, 69826); (69837, 69837); (69888, 69890);
   (69927, 69931); (69933, 69940); (70003, 70003); (70016, 70017); (70070, 70078); (70089, 70092); (70095, 70095);
   (70191, 70193); (70196, 70196); (70198, 70199); (70206, 70206); (70367, 70367); (70371, 70378); (70400, 70401);
   (70459, 70460); (70464, 70464); (70502, 70508); (70512, 70516); (70712, 70719); (70722, 70724); (70726, 70726);
   (70750, 70750); (70835, 70840); (70842, 70842); (70847, 70848); (70850, 70851); (71090, 71093); (71100, 71101);
   (71103, 71104); (71132, 71133); (71219, 71226); (71229, 71229); (71231, 71232); (71339, 71339); (71341, 71341);
   (71344, 71349); (71351, 71351); (71453, 71455); (71458, 71461); (71463, 71467); (71727, 71735); (71737, 71738);
   (71995, 71996); (71998, 71998); (72003, 72003); (72148, 72151); (72154, 72155); (72160, 72160); (72193, 72202);
   (72243, 72248); (72251, 72254); (72263, 72263); (72273, 72278); (72281, 72283); (72330, 72342); (72344, 72345);
   (72752, 72758); (72760, 72765); (72767, 72767); (72850, 72871); (72874, 72880); (72882, 72883); (72885, 72886);
   (73009, 73014); (73018, 73018); (73020, 73021); (73023, 73029); (73031, 73031); (73104, 73105); (73109, 73109);
   (73111, 73111); (73459, 73460); (78896, 78904); (92912, 92916); (92976, 92982); (92992, 92995); (94031, 94031);
   (94095, 94111); (94176, 94177); (94179, 94180); (110576, 110579); (110581, 110587); (110589, 110590); (113821, 113822);
   (113824, 113827); (118528, 118573); (118576, 118598); (119143, 119145); (119155, 119170); (119173, 119179); (119210, 119213);
   (119362, 119364); (121344, 121398); (121403, 121452); (121461, 121461); (121476, 121476); (121499, 121503); (121505, 121519);
   (122880, 122886); (122888, 122904); (122907, 122913); (122915, 122916); (122918, 122922); (123184, 123197); (123566, 123566);
   (123628, 123631); (125136, 125142); (125252, 125259); (127995, 127999); (917505, 917505); (917536, 917631); (917760, 917999)].

Definition in_ranges (c : Z) (rs : list (Z * Z)) : bool :=
  existsb (fun r => (r.1 <=? c) && (c <=? r.2)) rs.

(** Scanning away from a capital sigma: case-ignorable code points are
    skipped, the first other one decides whether a cased letter is there. *)
Fixpoint cased_next (l : list Z) : bool :=
  match l with
  | [] => false
  | c :: l' => if in_ranges c case_ignorable_ranges then cased_next l' else in_ranges c cased_ranges
  end.

(** The Final_Sigma condition of the Unicode SpecialCasing table; the text
    before the sigma is given in reverse order. *)
Definition final_sigma (before_rev after : list Z) : bool :=
  cased_next before_rev && negb (cased_next after).

Fixpoint lower_from (before_rev s : list Z) : list Z :=
  match s with
  | [] => []
  | c :: after =>
      (if c =? 931 then [if final_sigma before_rev after then 962 else 963] else lower_cp c)
        ++ lower_from (c :: before_rev) after
  end.

(** [s.toLowerCase()] *)
Definition to_lower (s : jstr) : jstr := lower_from [] s.
End JsString.

(** ** Keyboard layout and key handlers ([setup], [keyPressed], [keyReleased]) *)
Module Layout.
Import JsString.
Local Open Scope R_scope.

Definition keyboardRows : list jstr := [js "qwertyuiop"; js "asdfghjkl"; js "zxcvbnm"].

(** [keyToNode] is a plain object: its own properties, in creation order. *)
Definition key_map := list (jstr * nat).

Fixpoint own_lookup (k : jstr) (km : key_map) : option nat :=
  match km with
  | [] => None
  | (k', i) :: rest => if jstr_eqb k k' then Some i else own_lookup k rest
  end.

(** [keyToNode[key] = i] *)
Fixpoint set_prop (k : jstr) (i : nat) (km : key_map) : key_map :=
  match km with
  | [] => [(k, i)]
  | (k', j) :: rest => if jstr_eqb k k' then (k', i) :: rest else (k', j) :: set_prop k i rest
  end.

(** The body of [for (let col = 0; col < keys.length; col++)]; the rows are
    ASCII, so [keys.length] and [keys[col]] count and read code points. *)
Definition add_key (totalRows row : nat) (keys : jstr)
  (st : list Node.t * key_map) (col : nat) : list Node.t * key_map :=
  let '(nodes, keyToNode) := st in
  let y := map_range (INR row) 0 (INR (totalRows - 1)) (-250) 250 in
  let x := map_range (INR col) 0 (INR (length keys - 1)) (-400) 400 in
  let key := [nth col keys 0%Z] in
  let nodes' := nodes ++ [Node.mk x y 0] in
  (nodes', set_prop key (length nodes' - 1) keyToNode).

(** Part 2 of [setup]: the muscle nodes and [keyToNode] (part_000). *)
Definition setup_layout : list Node.t * key_map :=
  let totalRows := length keyboardRows in
  fold_left (fun st row =>
      let keys := nth row keyboardRows [] in
      fold_left (add_key totalRows row keys) (seq 0 (length keys)) st)
    (seq 0 totalRows) ([], []).

Definition nodes0 : list Node.t := setup_layout.1.
Definition keyToNode : key_map := setup_layout.2.

(** Property names every plain object inherits from [Object.prototype]. *)
Definition object_prototype_props : list jstr :=
  [js "constructor"; js "__defineGetter__"; js "__defineSetter__"; js "hasOwnProperty";
   js "__lookupGetter__"; js "__lookupSetter__"; js "isPrototypeOf";
   js "propertyIsEnumerable"; js "toString"; js "valueOf"; js "__proto__";
   js "toLocaleString"].

(** [k in keyToNode] *)
Definition has_prop (k : jstr) (km : key_map) : bool :=
  match own_lookup k km with
  | Some _ => true
  | None => existsb (jstr_eqb k) object_prototype_props
  end.

(** A JavaScript value read from [keyToNode]: a number, or an inherited
    member (a function or [Object.prototype]), or [undefined]. *)
Inductive js_val := JNum (i : nat) | JObject | JUndefined.

Definition get_prop (k : jstr) (km : key_map) : js_val :=
  match own_lookup k km with
  | Some i => JNum i
  | None => if existsb (jstr_eqb k) object_prototype_props then JObject else JUndefined
  end.

(** [nodes[v].force = f]: [nodes[v]] is [undefined] unless [v] is an index
    of the array, and assigning a field of [undefined] throws. *)
Definition set_force (f : R) (v : js_val) (nodes : list Node.t) : outcome (list Node.t) :=
  match v with
  | JNum i =>
      match nodes !! i with
      | Some node => Done (<[i := Node.mk (Node.x node) (Node.y node) f]> nodes)
      | None => Raised nodes
      end
  | _ => Raised nodes
  end.

(** [keyPressed] and [keyReleased] for the key [key]. *)
Definition set_key (f : R) (key : jstr) (nodes : list Node.t) : outcome (list Node.t) :=
  let k := to_lower key in
  if has_prop k keyToNode then set_force f (get_prop k keyToNode) nodes else Done nodes.

Definition keyPressed (key : jstr) (nodes : list Node.t) : outcome (list Node.t) :=
  set_key 1 key nodes.

Definition keyReleased (key : jstr) (nodes : list Node.t) : outcome (list Node.t) :=
  set_key 0 key nodes.

(** The node array after [nodes[i].force = f] for an index [i] in range. *)
Definition with_force (f : R) (i : nat) (nodes : list Node.t) : list Node.t :=
  match nodes !! i with
  | Some node => <[i := Node.mk (Node.x node) (Node.y node) f]> nodes
  | None => nodes
  end.
End Layout.

(** ** The sprite swarm: reshuffle ([sperm.js], [sperm2.js]) and scattered placement ([sperm2.js]) *)
Module Swarm.
Local Open Scope R_scope.

(** A sperm cell; [img] is a reference to a loaded asset, [meshIdx] is
    present in the anchor variant ([sperm.js]) only. *)
Record cell (A : Type) := mkCell {
  x : R; y : R; vx : R; vy : R;
  img : A;
  meshIdx : option (nat * nat);
  scale : R; angle : R; angleSpeed : R }.
Arguments mkCell {A}.
Arguments x {A}. Arguments y {A}. Arguments vx {A}. Arguments vy {A}.
Arguments img {A}. Arguments meshIdx {A}. Arguments scale {A}.
Arguments angle {A}. Arguments angleSpeed {A}.

Section Reshuffle.
Context {A : Type}.

(** [spermCells[i]]: [undefined] unless [i] is an index of the array. *)
Definition cell_at (i : Z) (cells : list (cell A)) : option (cell A) :=
  if (0 <=? i)%Z then cells !! Z.to_nat i else None.

Definition set_img (v : A) (c : cell A) : cell A :=
  mkCell (x c) (y c) (vx c) (vy c) v (meshIdx c) (scale c) (angle c) (angleSpeed c).

(** [spermCells[i].img = v] *)
Definition write_img (i : Z) (v : A) (cells : list (cell A)) : option (list (cell A)) :=
  match cell_at i cells with
  | Some c => Some (<[Z.to_nat i := set_img v c]> cells)
  | None => None
  end.

(** [let temp = spermCells[i].img; spermCells[i].img = spermCells[j].img;
     spermCells[j].img = temp;] *)
Definition swap_img (i j : Z) (cells : list (cell A)) : outcome (list (cell A)) :=
  match cell_at i cells with
  | None => Raised cells
  | Some ci =>
      let temp := img ci in
      match cell_at j cells with
      | None => Raised cells
      | Some cj =>
          match write_img i (img cj) cells with
          | None => Raised cells
          | Some cells1 =>
              match write_img j temp cells1 with
              | None => Raised cells1
              | Some cells2 => Done cells2
              end
          end
      end
  end.

(** The [for (let n = 0; n < swapsPerInterval; n++)] loop; [draws n] are
    the two values of [Math.random()] used by [random(spermCells.length)]
    in iteration [n]. *)
Fixpoint swaps (fuel : nat) (draws : nat -> R * R) (n : nat)
  (cells : list (cell A)) : outcome (list (cell A)) :=
  match fuel with
  | O => Done cells
  | S fuel' =>
      let i := floor (random1 (draws n).1 (INR (length cells))) in
      let j := floor (random1 (draws n).2 (INR (length cells))) in
      bind (swap_img i j cells) (swaps fuel' draws (S n)) (fun s => s)
  end.

Definition swapsPerInterval : nat := 36.

(** One reshuffle event of [draw]. *)
Definition reshuffle (draws : nat -> R * R) (cells : list (cell A)) : outcome (list (cell A)) :=
  swaps swapsPerInterval draws 0 cells.

(** A sequence of reshuffle events, one per frame where the interval elapsed. *)
Fixpoint reshuffles (events : list (nat -> R * R)) (cells : list (cell A))
  : outcome (list (cell A)) :=
  match events with
  | [] => Done cells
  | ev :: events' => bind (reshuffle ev cells) (reshuffles events') (fun s => s)
  end.

(** Every field but [img]. *)
Definition other_fields (c : cell A) :=
  (x c, y c, vx c, vy c, meshIdx c, scale c, angle c, angleSpeed c).
End Reshuffle.

Section Scatter.
Context {A : Type}.
(** [Math.random()] as a stream of draws, [width], [height] and the
    loaded [assets]. *)
Variable rng : nat -> R.
Variables width height : R.
Variable assets : list A.

Definition marginX : R := 80.
Definition marginY : R := 80.
Definition desiredAssetCount : nat := 800.
Definition minSpacing : R := 50.

(** The [for (let cell of spermCells)] conflict scan with its [break]. *)
Definition conflict (cells : list (cell (option A))) (cx cy : R) : bool :=
  existsb (fun c => ltb (dist (x c) (y c) cx cy) minSpacing) cells.

(** [while (attempts < 30)]; the state is [candidate] ([None] while it is
    still [undefined]), [attempts] and the number [k] of draws used. *)
Fixpoint try_place (fuel attempts k : nat) (candidate : option (R * R))
  (cells : list (cell (option A))) : option (R * R) * nat * nat :=
  match fuel with
  | O => (candidate, attempts, k)
  | S fuel' =>
      if (attempts <? 30)%nat then
        let cx := random2 (rng k) (- width / 2 + marginX) (width / 2 - marginX) in
        let cy := random2 (rng (S k)) (- height / 2 + marginY) (height / 2 - marginY) in
        if conflict cells cx cy
        then try_place fuel' (S attempts) (S (S k)) (Some (cx, cy)) cells
        else (Some (cx, cy), attempts, S (S k))
      else (candidate, attempts, k)
  end.

(** [assets[i % assets.length]] ([undefined] when there is no asset). *)
Definition asset_for (i : nat) : option A :=
  match assets with
  | [] => None
  | _ => assets !! (i mod length assets)
  end.

(** The state of the placement loop: the cells pushed so far, the final
    [attempts] of each of them, and the number of draws used. *)
Definition scatter_state := (list (cell (option A)) * list nat * nat)%type.

(** One iteration of [for (let i = 0; i < desiredAssetCount; i++)];
    reading a field of an [undefined] [candidate] throws. *)
Definition place_cell (st : scatter_state) (i : nat) : outcome scatter_state :=
  let '(cells, trace, k) := st in
  let '(candidate, attempts, k1) := try_place 30 0 k None cells in
  match candidate with
  | None => Raised st
  | Some (cx, cy) =>
      let c := mkCell cx cy
                 (random2 (rng k1) (-1) 1) (random2 (rng (k1 + 1)) (-1) 1)
                 (asset_for i) None
                 (random2 (rng (k1 + 2)) 0.3 0.5)
                 (random1 (rng (k1 + 3)) (2 * PI))
                 (random2 (rng (k1 + 4)) (-0.02) 0.02) in
      Done (cells ++ [c], trace ++ [attempts], k1 + 5)%nat
  end.

(** Part 3 of [setup] in [sperm2.js]. *)
Definition scatter_setup : outcome scatter_state :=
  fold_left (fun o i => bind o (fun st => place_cell st i) (fun s => s))
    (seq 0 desiredAssetCount) (Done ([], [], 0%nat)).
End Scatter.
End Swarm.

(** ** Mesh construction ([setup], part 1) and [anyNodeActive] *)
Module MeshSetup.
Import MeshPass.
Local Open Scope R_scope.

(** [{x: px, y: py, vx: 0, vy: 0, rest_x: px, rest_y: py}] for column [xx]
    and row [yy], the grid spanning [[x0, x1] x [y0, y1]]. *)
Definition grid_point (x0 x1 y0 y1 : R) (yy xx : nat) : GridPoint.t :=
  let px := map_range (INR xx) 0 (INR (cols - 1)) x0 x1 in
  let py := map_range (INR yy) 0 (INR (rows_ - 1)) y0 y1 in
  GridPoint.mk px py 0 0 px py.

(** [for (y < rows_) { meshRow = []; for (x < cols) meshRow.push(...);
    mesh.push(meshRow); }] *)
Definition mesh_grid (x0 x1 y0 y1 : R) : mesh :=
  fold_left (fun m yy =>
      m ++ [fold_left (fun row xx => row ++ [grid_point x0 x1 y0 y1 yy xx]) (seq 0 cols) []])
    (seq 0 rows_) [].

(** The mesh of part_000. *)
Definition mesh0 : mesh := mesh_grid (-400) 400 (-250) 250.

(** The mesh of sperm.js and sperm2.js, filling the canvas up to the margins. *)
Definition canvas_mesh (width height : R) : mesh :=
  mesh_grid (- width / 2 + Swarm.marginX) (width / 2 - Swarm.marginX)
            (- height / 2 + Swarm.marginY) (height / 2 - Swarm.marginY).

(** [anyNodeActive()]: [nodes.some(node => node.force > 0)]. *)
Definition anyNodeActive (nodes : list Node.t) : bool :=
  existsb (fun node => ltb 0 (Node.force node)) nodes.

(** A grid point that sits at its rest position without moving. *)
Definition at_rest (p : GridPoint.t) : Prop :=
  GridPoint.x p = GridPoint.rest_x p /\ GridPoint.y p = GridPoint.rest_y p /\
  GridPoint.vx p = 0 /\ GridPoint.vy p = 0.
End MeshSetup.

(** ** Sequences of key events *)
Module KeyEvents.
Import JsString Layout.




End KeyEvents.

(** ** sperm.js: cells anchored to mesh points, and the frame of [draw] *)
Module AnchorSwarm.
Import Swarm MeshPass MeshSetup.
Local Open Scope R_scope.

Definition jitter : R := 30.

Section Setup.
Context {A : Type}.
Variable rng : nat -> R.
Variable assets : list A.

(** The cells pushed so far, [idx], and the number of draws used. *)
Definition anchor_state := (list (cell (option A)) * nat * nat)%type.

(** The body of [for (let x = 0; x < cols; x++)] in part 3 of [setup]. *)
Definition anchor_visit (m : mesh) (yy : nat) (st : anchor_state) (xx : nat)
  : outcome anchor_state :=
  let '(cells, idx, k) := st in
  if (idx <? length assets)%nat then
    match m !! yy ≫= (fun row => row !! xx) with
    | None => Raised st
    | Some p =>
        let c := mkCell
          (GridPoint.x p + random2 (rng k) (- jitter) jitter)
          (GridPoint.y p + random2 (rng (k + 1)) (- jitter) jitter)
          (random2 (rng (k + 2)) (-1) 1) (random2 (rng (k + 3)) (-1) 1)
          (assets !! idx) (Some (xx, yy))
          (random2 (rng (k + 4)) 0.6 1.2)
          (random1 (rng (k + 5)) (2 * PI))
          (random2 (rng (k + 6)) (-0.02) 0.02) in
        Done (cells ++ [c], S idx, (k + 7)%nat)
    end
  else Done st.

(** Part 3 of [setup] in sperm.js, on the mesh [m] built in part 1. *)
Definition anchor_setup (m : mesh) : outcome anchor_state :=
  fold_left (fun o yy =>
      fold_left (fun o' xx => bind o' (fun st => anchor_visit m yy st xx) (fun s => s))
        (seq 0 cols) o)
    (seq 0 rows_) (Done ([], 0%nat, 0%nat)).
End Setup.

Section Animate.
Context {B : Type}.

(** [mesh[cell.meshIdx.y][cell.meshIdx.x]], when it exists. *)
Definition anchor_point (m : mesh) (c : cell B) : option GridPoint.t :=
  match meshIdx c with
  | None => None
  | Some (mx, my) => m !! my ≫= (fun row => row !! mx)
  end.

(** The body of [for (let cell of spermCells)] in [draw] (without the
    drawing calls): [mesh[cell.meshIdx.y][cell.meshIdx.x]] must exist. *)
Definition anchor_step (m : mesh) (c : cell B) : outcome (cell B) :=
  match meshIdx c with
  | None => Raised c
  | Some (mx, my) =>
      match m !! my ≫= (fun row => row !! mx) with
      | None => Raised c
      | Some p =>
          let fx := (GridPoint.x p - x c) * 0.01 in
          let fy := (GridPoint.y p - y c) * 0.01 in
          let vx' := (vx c + fx) * 0.96 in
          let vy' := (vy c + fy) * 0.96 in
          Done (mkCell (x c + vx') (y c + vy') vx' vy' (img c) (meshIdx c)
                  (scale c) (angle c + angleSpeed c) (angleSpeed c))
      end
  end.

(** The loop over all cells; a throw leaves the earlier cells updated. *)
Fixpoint anchor_cells (m : mesh) (cells : list (cell B)) : outcome (list (cell B)) :=
  match cells with
  | [] => Done []
  | c :: cs =>
      match anchor_step m c with
      | Raised _ => Raised (c :: cs)
      | Done c' =>
          match anchor_cells m cs with
          | Done cs' => Done (c' :: cs')
          | Raised cs' => Raised (c' :: cs')
          end
      end
  end.

(** One execution of [draw] in sperm.js: the reshuffle when the interval
    has elapsed ([Some draws]), the mesh pass with [k_rest = 0.04], then the
    cell loop. *)
Definition anchor_frame (nodes : list Node.t) (shuffle : option (nat -> R * R))
  (st : mesh * list (cell B)) : outcome (mesh * list (cell B)) :=
  let '(m, cells) := st in
  match (match shuffle with None => Done cells | Some d => reshuffle d cells end) with
  | Raised cs => Raised (m, cs)
  | Done cs =>
      match mesh_step 0.04 nodes m with
      | Raised m' => Raised (m', cs)
      | Done m' =>
          match anchor_cells m' cs with
          | Done cs' => Done (m', cs')
          | Raised cs' => Raised (m', cs')
          end
      end
  end.

Fixpoint anchor_frames (nodes : list Node.t) (shuffles : list (option (nat -> R * R)))
  (st : mesh * list (cell B)) : outcome (mesh * list (cell B)) :=
  match shuffles with
  | [] => Done st
  | sh :: rest => bind (anchor_frame nodes sh st) (anchor_frames nodes rest) (fun s => s)
  end.

(** The distance of a cell to its anchor point on the mesh [m]. *)
Definition anchor_dist (m : mesh) (c : cell B) : option R :=
  match meshIdx c with
  | None => None
  | Some (mx, my) =>
      (fun p => dist (x c) (y c) (GridPoint.x p) (GridPoint.y p)) <$> (m !! my ≫= (fun row => row !! mx))
  end.
End Animate.
End AnchorSwarm.

(** ** sperm2.js: free cells pulled by the active nodes *)
Module ScatterSwarm.
Import Swarm MeshPass.
Local Open Scope R_scope.

Section Animate.
Context {B : Type}.

(** One node's contribution to the cell's [(fx, fy)]. *)
Definition cell_pull (c : cell B) (acc : R * R) (node : Node.t) : R * R :=
  let '(fx, fy) := acc in
  let d := dist (x c) (y c) (Node.x node) (Node.y node) in
  if ltb 0 (Node.force node) && ltb d 180 then
    let strength := 3 * Node.force node * (180 - d) / 180 in
    (fx + (Node.x node - x c) * strength * 0.005,
     fy + (Node.y node - y c) * strength * 0.005)
  else (fx, fy).

(** The body of [for (let cell of spermCells)] in sperm2.js (without the
    drawing calls). *)
Definition scatter_step (nodes : list Node.t) (c : cell B) : cell B :=
  let '(fx, fy) := fold_left (cell_pull c) nodes (0, 0) in
  let vx' := (vx c + fx) * 0.96 in
  let vy' := (vy c + fy) * 0.96 in
  mkCell (x c + vx') (y c + vy') vx' vy' (img c) (meshIdx c)
    (scale c) (angle c + angleSpeed c) (angleSpeed c).

Definition scatter_cells (nodes : list Node.t) (cells : list (cell B)) : list (cell B) :=
  scatter_step nodes <$> cells.

(** One execution of [draw] in sperm2.js: the reshuffle when the interval
    has elapsed ([Some draws]), the mesh pass with [k_rest = 0.04], then the
    cell loop. *)
Definition scatter_frame (nodes : list Node.t) (shuffle : option (nat -> R * R))
  (st : mesh * list (cell B)) : outcome (mesh * list (cell B)) :=
  let '(m, cells) := st in
  match (match shuffle with None => Done cells | Some d => reshuffle d cells end) with
  | Raised cs => Raised (m, cs)
  | Done cs =>
      match mesh_step 0.04 nodes m with
      | Raised m' => Raised (m', cs)
      | Done m' => Done (m', scatter_cells nodes cs)
      end
  end.

Fixpoint scatter_frames (nodes : list Node.t) (shuffles : list (option (nat -> R * R)))
  (st : mesh * list (cell B)) : outcome (mesh * list (cell B)) :=
  match shuffles with
  | [] => Done st
  | sh :: rest => bind (scatter_frame nodes sh st) (scatter_frames nodes rest) (fun s => s)
  end.
End Animate.
End ScatterSwarm.

(** ** The reshuffle timer at the top of [draw] (sperm.js, sperm2.js) *)
Module ShuffleTimer.
Local Open Scope R_scope.

Definition shuffleInterval : R := 111.

(** [if (millis() - lastShuffle > shuffleInterval) { ...; lastShuffle =
    millis(); }] over a run of frames; each frame gives the two readings of
    [millis()], the one of the test and the one of the assignment.  The
    result tells which frames reshuffle. *)
Fixpoint shuffle_frames (lastShuffle : R) (frames : list (R * R)) : list bool :=
  match frames with
  | [] => []
  | (now1, now2) :: rest =>
      if ltb shuffleInterval (now1 - lastShuffle)
      then true :: shuffle_frames now2 rest
      else false :: shuffle_frames lastShuffle rest
  end.

(** [millis()] never goes back: within a frame and from one frame to the next. *)
Definition ordered (frames : list (R * R)) : Prop :=
  ∀ i f, frames !! i = Some f ->
    f.1 <= f.2 /\ ∀ g, frames !! S i = Some g -> f.2 <= g.1.
End ShuffleTimer.

(** * Proofs *)

(** Decimal literals such as [0.88] denote [Q2R] of a rational; expose them
    as quotients of integers so that [field] can use them. *)
Ltac decimals := unfold Q2R; cbn [QArith_base.Qnum QArith_base.Qden].

Module MeshPassFacts.
Import MeshPass.
Local Open Scope R_scope.

Lemma elem_of_indices_from {A} (m : list (list A)) (r i j : nat) :
  (i, j) ∈ indices_from r m <->
  (r <= i)%nat /\ exists row, m !! (i - r)%nat = Some row /\ (j < length row)%nat.
Proof.
  revert r. induction m as [|row m IH]; intros r; simpl.
  - split; [intros Hin; apply not_elem_of_nil in Hin; contradiction|].
    intros (_ & row & Hrow & _). done.
  - rewrite elem_of_app, list_elem_of_fmap, IH. split.
    + intros [(c & Heq & Hc)|(Hle & row' & Hrow' & Hj)].
      * injection Heq as -> ->. apply elem_of_seq in Hc.
        split; [lia|]. exists row. rewrite Nat.sub_diag. split; [done|lia].
      * split; [lia|]. exists row'. replace (i - r)%nat with (S (i - S r)) by lia.
        done.
    + intros (Hle & row' & Hrow' & Hj).
      destruct (decide (i = r)) as [->|Hne].
      * left. exists j. rewrite Nat.sub_diag in Hrow'. injection Hrow' as <-.
        split; [done|]. apply elem_of_seq. lia.
      * right. split; [lia|]. exists row'.
        replace (i - r)%nat with (S (i - S r)) in Hrow' by lia. done.
Qed.

Lemma elem_of_indices {A} (m : list (list A)) (i j : nat) :
  (i, j) ∈ indices m <-> exists row, m !! i = Some row /\ (j < length row)%nat.
Proof.
  unfold indices. rewrite elem_of_indices_from, Nat.sub_0_r. split.
  - intros [_ H]. exact H.
  - intros H. split; [lia|exact H].
Qed.

Lemma NoDup_indices_from {A} (m : list (list A)) (r : nat) :
  NoDup (indices_from r m).
Proof.
  revert r. induction m as [|row m IH]; intros r; simpl.
  - constructor.
  - apply NoDup_app. split; [|split].
    + apply NoDup_fmap_2; [intros a b Hab; injection Hab; done|apply NoDup_seq].
    + intros [i j] Hin Hin'. apply list_elem_of_fmap in Hin as (c & Heq & _).
      injection Heq as -> ->. apply elem_of_indices_from in Hin'. lia.
    + apply IH.
Qed.

Lemma indices_rect {A} (m : list (list A)) (ncols r : nat) :
  Forall (fun row => length row = ncols) m ->
  indices_from r m = seq r (length m) ≫= (fun yy => (fun xx => (yy, xx)) <$> seq 0 ncols).
Proof.
  revert r. induction m as [|row m IH]; intros r Hrect; simpl; [done|].
  apply Forall_cons in Hrect as [Hrow Hrect]. rewrite Hrow, IH by done. done.
Qed.

Section Partial.
Variable k_rest : R.
Variable nodes : list Node.t.

Lemma partial_nil (m : mesh) : partial k_rest nodes [] m = m.
Proof.
  apply list_eq. intros r. unfold partial. rewrite list_lookup_imap.
  destruct (m !! r) as [row|]; simpl; [|done]. f_equal.
  apply list_eq. intros c. rewrite list_lookup_imap.
  destruct (row !! c); simpl; done.
Qed.

Lemma partial_all (S : list (nat * nat)) (m : mesh) :
  (forall r c row, m !! r = Some row -> (c < length row)%nat -> (r, c) ∈ S) ->
  partial k_rest nodes S m = pointwise k_rest nodes m.
Proof.
  intros Hall. apply list_eq. intros r. unfold partial, pointwise.
  rewrite list_lookup_imap, list_lookup_fmap.
  destruct (m !! r) as [row|] eqn:Hrow; cbn -[decide]; [|done]. f_equal.
  apply list_eq. intros c. rewrite list_lookup_imap, list_lookup_fmap.
  destruct (row !! c) eqn:Hc; cbn -[decide]; [|done].
  rewrite decide_True; [done|]. apply (Hall r c row Hrow).
  apply lookup_lt_Some in Hc. done.
Qed.

Lemma partial_ext (S S' : list (nat * nat)) (m : mesh) :
  (forall i, i ∈ S <-> i ∈ S') -> partial k_rest nodes S m = partial k_rest nodes S' m.
Proof.
  intros Heq. apply list_eq. intros r. unfold partial.
  rewrite !list_lookup_imap. destruct (m !! r) as [row|]; cbn -[decide]; [|done]. f_equal.
  apply list_eq. intros c. rewrite !list_lookup_imap.
  destruct (row !! c); cbn -[decide]; [|done].
  f_equal. do 2 case_decide; naive_solver.
Qed.

Lemma update_at_partial (S : list (nat * nat)) (m : mesh) (r c : nat) (row : list GridPoint.t) :
  m !! r = Some row -> (c < length row)%nat -> (r, c) ∉ S ->
  update_at k_rest nodes (partial k_rest nodes S m) (r, c)
  = Done (partial k_rest nodes (S ++ [(r, c)]) m).
Proof.
  intros Hrow Hc HnS.
  destruct (lookup_lt_is_Some_2 row c Hc) as [p Hp].
  unfold update_at. unfold partial at 1. rewrite list_lookup_imap, Hrow. cbn -[decide].
  rewrite list_lookup_imap, Hp. cbn -[decide]. rewrite decide_False by done.
  f_equal. apply list_eq. intros i. rewrite list_lookup_insert.
  destruct (decide (r = i /\ (r < length (partial k_rest nodes S m))%nat)) as [[<- _]|Hne].
  - unfold partial. rewrite list_lookup_imap, Hrow. cbn -[decide]. f_equal.
    apply list_eq. intros j. rewrite list_lookup_insert, !list_lookup_imap.
    destruct (decide (c = j /\ _)) as [[<- _]|Hne'].
    + rewrite Hp. cbn -[decide]. rewrite decide_True; [done|].
      apply elem_of_app. right. apply list_elem_of_singleton. done.
    + destruct (row !! j) as [q|] eqn:Hq; cbn -[decide]; [|done].
      assert (c <> j) as Hcj.
      { intros <-. apply Hne'. split; [done|]. rewrite length_imap. done. }
      f_equal. destruct (decide ((r, j) ∈ S)) as [H1|H1];
        destruct (decide ((r, j) ∈ S ++ [(r, c)])) as [H2|H2]; try done.
      * exfalso. apply H2, elem_of_app. left. done.
      * exfalso. apply elem_of_app in H2 as [H2|H2]; [done|].
        apply list_elem_of_singleton in H2. injection H2. done.
  - assert (r <> i) as Hri.
    { intros <-. apply Hne. split; [done|]. unfold partial. rewrite length_imap.
      apply lookup_lt_Some in Hrow. done. }
    unfold partial. rewrite !list_lookup_imap.
    destruct (m !! i) as [row'|]; cbn -[decide]; [|done]. f_equal.
    apply list_eq. intros j. rewrite !list_lookup_imap.
    destruct (row' !! j); cbn -[decide]; [|done]. f_equal.
    destruct (decide ((i, j) ∈ S)) as [H1|H1];
      destruct (decide ((i, j) ∈ S ++ [(r, c)])) as [H2|H2]; try done.
    + exfalso. apply H2, elem_of_app. left. done.
    + exfalso. apply elem_of_app in H2 as [H2|H2]; [done|].
      apply list_elem_of_singleton in H2. injection H2. intros; subst. done.
Qed.

Lemma run_order_partial (L S : list (nat * nat)) (m : mesh) :
  NoDup L -> (forall i, i ∈ L -> i ∉ S) -> (forall i, i ∈ L -> i ∈ indices m) ->
  run_order k_rest nodes L (partial k_rest nodes S m)
  = Done (partial k_rest nodes (S ++ L) m).
Proof.
  revert S. induction L as [|[r c] L IH]; intros S Hnd Hdis Hval; cbn [run_order].
  - rewrite app_nil_r. done.
  - apply NoDup_cons in Hnd as [HnotL Hnd].
    destruct (proj1 (elem_of_indices m r c) (Hval _ (list_elem_of_here _ _)))
      as (row & Hrow & Hc).
    rewrite (update_at_partial S m r c row Hrow Hc) by (apply Hdis; constructor).
    rewrite IH.
    + rewrite <- app_assoc. done.
    + done.
    + intros i Hi. rewrite elem_of_app, list_elem_of_singleton.
      intros [Hin| ->]; [|done]. apply (Hdis i); [by constructor|done].
    + intros i Hi. apply Hval. by constructor.
Qed.

(** Running the updates in any order that enumerates every point once
    gives the pointwise update. *)
Lemma run_order_perm (order : list (nat * nat)) (m : mesh) :
  order ≡ₚ indices m -> run_order k_rest nodes order m = Done (pointwise k_rest nodes m).
Proof.
  intros Hperm.
  assert (NoDup order) as Hnd by (rewrite Hperm; apply NoDup_indices_from).
  rewrite <- (partial_nil m) at 1.
  rewrite run_order_partial; [|done|intros i _ Hi; by apply not_elem_of_nil in Hi|].
  - cbn [app]. f_equal. apply partial_all. intros r c row Hrow Hc.
    rewrite Hperm. apply elem_of_indices. eauto.
  - intros i Hi. rewrite <- Hperm. done.
Qed.

Lemma mesh_step_pointwise (m : mesh) :
  length m = rows_ -> Forall (fun row => length row = cols) m ->
  mesh_step k_rest nodes m = Done (pointwise k_rest nodes m).
Proof.
  intros Hlen Hrect. unfold mesh_step. apply run_order_perm.
  unfold indices, row_major. rewrite (indices_rect m cols 0 Hrect), Hlen. done.
Qed.
End Partial.

End MeshPassFacts.

Module MeshTheorems.
Import MeshPass MeshPassFacts MeshSpec.
Local Open Scope R_scope.

Lemma fold_pull (p : GridPoint.t) (nodes : list Node.t) (a b : R) :
  fold_left (Mesh.pull p) nodes (a, b)
  = (a + sumR (map (fun node => (Node.x node - GridPoint.x p) * pull_gain p node * 0.01)
                 (List.filter (captures p) nodes)),
     b + sumR (map (fun node => (Node.y node - GridPoint.y p) * pull_gain p node * 0.01)
                 (List.filter (captures p) nodes))).
Proof.
  revert a b. induction nodes as [|node nodes IH]; intros a b; cbn [fold_left List.filter].
  - simpl. f_equal; ring.
  - unfold Mesh.pull at 2.
    change (ltb 0 (Node.force node) && ltb _ 180) with (captures p node).
    destruct (captures p node) eqn:Hc; cbn [map sumR].
    + rewrite IH. unfold pull_gain. cbv zeta. f_equal; ring.
    + rewrite IH. f_equal.
Qed.

Lemma ltb_true (a b : R) : a < b -> ltb a b = true.
Proof. intros H. unfold ltb. destruct (Rlt_dec a b); [done|lra]. Qed.

Lemma ltb_false (a b : R) : b <= a -> ltb a b = false.
Proof. intros H. unfold ltb. destruct (Rlt_dec a b); [lra|done]. Qed.

(** C1: one step of a grid point is the spring term plus the summed
    capped pulls of the active nodes in range, followed by damped
    semi-implicit Euler integration. *)
Theorem step_point_force_model (k_rest : R) (nodes : list Node.t) (p : GridPoint.t) :
  Mesh.step_point k_rest nodes p = spec_step k_rest nodes p.
Proof.
  unfold Mesh.step_point, spec_step, total_force_x, total_force_y.
  rewrite fold_pull. f_equal; ring.
Qed.

Lemma scenario_step :
  Mesh.step_point 0.08 [scenario_node] scenario_point
  = GridPoint.mk (100 + (0 + (0 * 0.08 + (0 - 100) * (3 * 1 * (180 - 100) / 180) * 0.01)) * 0.88)
      (0 + (0 + (0 * 0.08 + (0 - 0) * (3 * 1 * (180 - 100) / 180) * 0.01)) * 0.88)
      ((0 + (0 * 0.08 + (0 - 100) * (3 * 1 * (180 - 100) / 180) * 0.01)) * 0.88)
      ((0 + (0 * 0.08 + (0 - 0) * (3 * 1 * (180 - 100) / 180) * 0.01)) * 0.88)
      100 0.
Proof.
  assert (Hd : dist 100 0 0 0 = 100).
  { unfold dist. replace ((0 - 100) * (0 - 100) + (0 - 0) * (0 - 0)) with (100 * 100) by ring.
    apply sqrt_square. lra. }
  unfold Mesh.step_point, scenario_node, scenario_point. simpl.
  unfold Mesh.pull. simpl. rewrite Hd.
  rewrite (ltb_true 0 1), (ltb_true 100 180) by lra. simpl.
  f_equal; ring.
Qed.

(** C3: in a 20 x 14 mesh, a point resting at (100, 0) with one active
    node at the origin moves towards the node without overshooting it. *)
Theorem scenario_moves_toward_node (m : mesh) (r c : nat) :
  length m = rows_ -> Forall (fun row => length row = cols) m ->
  m !! r ≫= (fun row => row !! c) = Some scenario_point ->
  exists m' p', mesh_step 0.08 [scenario_node] m = Done m'
    /\ m' !! r ≫= (fun row => row !! c) = Some p'
    /\ 0 < GridPoint.x p' < 100.
Proof.
  intros Hlen Hrect Hp.
  rewrite mesh_step_pointwise by done.
  eexists _, _. split; [reflexivity|]. split.
  - unfold pointwise. rewrite list_lookup_fmap.
    destruct (m !! r) as [row|]; simpl in *; [|discriminate].
    rewrite list_lookup_fmap, Hp. reflexivity.
  - rewrite scenario_step. simpl. lra.
Qed.

Lemma scenario_moves_toward_node_witness :
  let m := repeat (repeat scenario_point cols) rows_ in
  length m = rows_ /\ Forall (fun row => length row = cols) m
  /\ m !! 0%nat ≫= (fun row => row !! 0%nat) = Some scenario_point
  /\ exists m' p', mesh_step 0.08 [scenario_node] m = Done m'
       /\ m' !! 0%nat ≫= (fun row => row !! 0%nat) = Some p'
       /\ 0 < GridPoint.x p' < 100.
Proof.
  intros m.
  assert (H1 : length m = rows_) by reflexivity.
  assert (H2 : Forall (fun row => length row = cols) m) by (repeat constructor).
  assert (H3 : m !! 0%nat ≫= (fun row => row !! 0%nat) = Some scenario_point) by reflexivity.
  split; [exact H1|]. split; [exact H2|]. split; [exact H3|].
  exact (scenario_moves_toward_node m 0 0 H1 H2 H3).
Defined.

(** C9: the in-place mesh pass does not depend on the traversal order:
    any order that visits every point exactly once yields the pointwise
    update, and so does the row-major order of the source. *)
Theorem mesh_pass_order_independent (k_rest : R) (nodes : list Node.t) (m : mesh)
  (order : list (nat * nat)) :
  order ≡ₚ indices m ->
  run_order k_rest nodes order m = Done (pointwise k_rest nodes m).
Proof. apply run_order_perm. Qed.

Lemma mesh_pass_order_independent_witness :
  [(1, 0); (0, 0)]%nat ≡ₚ indices [[scenario_point]; [scenario_point]]
  /\ run_order 0.08 [scenario_node] [(1, 0); (0, 0)]%nat [[scenario_point]; [scenario_point]]
     = Done (pointwise 0.08 [scenario_node] [[scenario_point]; [scenario_point]]).
Proof.
  assert (H : [(1, 0); (0, 0)]%nat ≡ₚ indices [[scenario_point]; [scenario_point]])
    by (simpl; apply Permutation_swap).
  split; [exact H|].
  exact (mesh_pass_order_independent 0.08 [scenario_node] _ _ H).
Defined.

End MeshTheorems.

Module MeshConvergence.
Import MeshPass MeshPassFacts MeshSpec.
Local Open Scope R_scope.

Lemma fold_pull_inactive (p : GridPoint.t) (nodes : list Node.t) (acc : R * R) :
  Forall (fun node => Node.force node = 0) nodes -> fold_left (Mesh.pull p) nodes acc = acc.
Proof.
  revert acc. induction nodes as [|node nodes IH]; intros [fx fy] Hz; cbn [fold_left]; [done|].
  apply Forall_cons in Hz as [Hn Hz].
  unfold Mesh.pull at 2. rewrite Hn. unfold ltb at 1.
  destruct (Rlt_dec 0 0); [lra|]. simpl. apply IH, Hz.
Qed.

Lemma step_point_inactive (k_rest : R) (nodes : list Node.t) (p : GridPoint.t) :
  Forall (fun node => Node.force node = 0) nodes ->
  Mesh.step_point k_rest nodes p = Mesh.step_point k_rest [] p.
Proof.
  intros Hz. unfold Mesh.step_point. rewrite fold_pull_inactive by done. done.
Qed.

Lemma energy_step (k_rest : R) (p : GridPoint.t) :
  energy k_rest (Mesh.step_point k_rest [] p) = 0.88 * energy k_rest p.
Proof.
  destruct p as [px py pvx pvy prx pry].
  unfold energy, axis_energy, spring_beta, Mesh.step_point. simpl. decimals. field.
Qed.

Lemma energy_iter (k_rest : R) (n : nat) (p : GridPoint.t) :
  energy k_rest (Nat.iter n (Mesh.step_point k_rest []) p) = 0.88 ^ n * energy k_rest p.
Proof.
  induction n as [|n IH]; simpl; [ring|]. rewrite energy_step, IH. ring.
Qed.

Lemma beta_gap (k_rest : R) :
  0.04 <= k_rest <= 0.08 -> 0 < k_rest - spring_beta k_rest * spring_beta k_rest.
Proof.
  intros Hk. assert (0 <= spring_beta k_rest <= 0.05) by (unfold spring_beta; lra).
  nra.
Qed.

Lemma axis_energy_lower (k_rest e v : R) :
  0.04 <= k_rest <= 0.08 ->
  (k_rest - spring_beta k_rest * spring_beta k_rest) * (e * e) <= axis_energy k_rest e v.
Proof.
  intros Hk. unfold axis_energy.
  replace (k_rest * e * e + 2 * spring_beta k_rest * e * v + v * v)
    with ((k_rest - spring_beta k_rest * spring_beta k_rest) * (e * e)
          + (v + spring_beta k_rest * e) * (v + spring_beta k_rest * e)) by ring.
  pose proof (Rle_0_sqr (v + spring_beta k_rest * e)) as H. unfold Rsqr in H. lra.
Qed.

Lemma rest_dist_energy (k_rest : R) (p : GridPoint.t) :
  0.04 <= k_rest <= 0.08 ->
  (k_rest - spring_beta k_rest * spring_beta k_rest) * (rest_dist p * rest_dist p)
  <= energy k_rest p.
Proof.
  intros Hk. unfold rest_dist, dist, energy.
  rewrite sqrt_sqrt by (apply Rplus_le_le_0_compat; apply Rle_0_sqr).
  pose proof (axis_energy_lower k_rest (GridPoint.x p - GridPoint.rest_x p) (GridPoint.vx p) Hk).
  pose proof (axis_energy_lower k_rest (GridPoint.y p - GridPoint.rest_y p) (GridPoint.vy p) Hk).
  nra.
Qed.

Lemma energy_nonneg (k_rest : R) (p : GridPoint.t) :
  0.04 <= k_rest <= 0.08 -> 0 <= energy k_rest p.
Proof.
  intros Hk. pose proof (rest_dist_energy k_rest p Hk). pose proof (beta_gap k_rest Hk).
  assert (0 <= rest_dist p * rest_dist p) by nra. nra.
Qed.

Lemma pointwise_rect (k_rest : R) (nodes : list Node.t) (m : mesh) :
  length m = rows_ -> Forall (fun row => length row = cols) m ->
  length (pointwise k_rest nodes m) = rows_
  /\ Forall (fun row => length row = cols) (pointwise k_rest nodes m).
Proof.
  intros Hlen Hrect. unfold pointwise. rewrite length_fmap. split; [done|].
  apply Forall_fmap. eapply Forall_impl; [exact Hrect|]. intros row Hrow. simpl.
  rewrite length_fmap. done.
Qed.

Lemma steps_rect (k_rest : R) (nodes : list Node.t) (n : nat) (m : mesh) :
  length m = rows_ -> Forall (fun row => length row = cols) m ->
  steps k_rest nodes n m = Done (Nat.iter n (pointwise k_rest nodes) m)
  /\ length (Nat.iter n (pointwise k_rest nodes) m) = rows_
  /\ Forall (fun row => length row = cols) (Nat.iter n (pointwise k_rest nodes) m).
Proof.
  intros Hlen Hrect. induction n as [|n (IHs & IHl & IHr)]; simpl; [done|].
  rewrite IHs, mesh_step_pointwise by done. split; [done|].
  apply pointwise_rect; done.
Qed.

Lemma lookup_iter_pointwise (k_rest : R) (nodes : list Node.t) (n r c : nat) (m : mesh) :
  Nat.iter n (pointwise k_rest nodes) m !! r ≫= (fun row => row !! c)
  = Nat.iter n (Mesh.step_point k_rest nodes) <$> (m !! r ≫= (fun row => row !! c)).
Proof.
  induction n as [|n IH]; simpl.
  - destruct (m !! r); simpl; [|done]. destruct (l !! c); done.
  - unfold pointwise at 1. rewrite list_lookup_fmap.
    destruct (Nat.iter n (pointwise k_rest nodes) m !! r) as [row|]; simpl in *.
    + rewrite list_lookup_fmap, IH. destruct (m !! r ≫= _); done.
    + destruct (m !! r ≫= _); done.
Qed.

Lemma iter_inactive (k_rest : R) (nodes : list Node.t) (n : nat) (p : GridPoint.t) :
  Forall (fun node => Node.force node = 0) nodes ->
  Nat.iter n (Mesh.step_point k_rest nodes) p = Nat.iter n (Mesh.step_point k_rest []) p.
Proof.
  intros Hz. induction n as [|n IH]; simpl; [done|].
  rewrite IH. apply step_point_inactive, Hz.
Qed.

(** C8 (as amended): with every node inactive, each mesh step scales the
    energy [energy k_rest] of every point by exactly 0.88, so the point at
    row [r], column [c] has energy [0.88 ^ n] times its initial one after
    [n] frames, and every point of the mesh converges to its rest position. *)
Theorem rest_position_converges (k_rest : R) (nodes : list Node.t) (m : mesh)
  (r c : nat) (p : GridPoint.t) (eps : R) :
  0.04 <= k_rest <= 0.08 -> Forall (fun node => Node.force node = 0) nodes ->
  length m = rows_ -> Forall (fun row => length row = cols) m ->
  m !! r ≫= (fun row => row !! c) = Some p -> 0 < eps ->
  (forall q, energy k_rest (Mesh.step_point k_rest nodes q) = 0.88 * energy k_rest q)
  /\ (forall n, exists m' p', steps k_rest nodes n m = Done m'
      /\ m' !! r ≫= (fun row => row !! c) = Some p'
      /\ energy k_rest p' = 0.88 ^ n * energy k_rest p)
  /\ exists N, forall n, (N <= n)%nat ->
    exists m' p', steps k_rest nodes n m = Done m'
      /\ m' !! r ≫= (fun row => row !! c) = Some p' /\ rest_dist p' <= eps.
Proof.
  intros Hk Hz Hlen Hrect Hp Heps.
  split; [intros q; rewrite step_point_inactive by done; apply energy_step|].
  split.
  { intros n. destruct (steps_rect k_rest nodes n m Hlen Hrect) as (Hs & _ & _).
    exists (Nat.iter n (pointwise k_rest nodes) m), (Nat.iter n (Mesh.step_point k_rest nodes) p).
    split; [exact Hs|]. split; [rewrite lookup_iter_pointwise, Hp; reflexivity|].
    rewrite iter_inactive by done. apply energy_iter. }
  pose proof (beta_gap k_rest Hk) as Hg.
  set (g := k_rest - spring_beta k_rest * spring_beta k_rest) in *.
  pose proof (energy_nonneg k_rest p Hk) as HE0.
  set (E0 := energy k_rest p) in *.
  set (y := eps * eps * g / (E0 + 1)).
  assert (Hy : y * (E0 + 1) = eps * eps * g) by (unfold y; field; lra).
  assert (Hypos : 0 < y) by (unfold y; apply Rdiv_lt_0_compat; [apply Rmult_lt_0_compat; [apply Rmult_lt_0_compat; lra|exact Hg]|lra]).
  assert (Habs : Rabs 0.88 < 1) by (rewrite Rabs_right; lra).
  destruct (pow_lt_1_zero 0.88 Habs y Hypos) as [N HN].
  exists N. intros n Hn.
  destruct (steps_rect k_rest nodes n m Hlen Hrect) as (Hs & _ & _).
  exists (Nat.iter n (pointwise k_rest nodes) m), (Nat.iter n (Mesh.step_point k_rest nodes) p).
  split; [exact Hs|]. split; [rewrite lookup_iter_pointwise, Hp; reflexivity|].
  rewrite iter_inactive by done.
  set (q := Nat.iter n (Mesh.step_point k_rest []) p).
  pose proof (rest_dist_energy k_rest q Hk) as Hq.
  unfold q in Hq. rewrite energy_iter in Hq. fold q in Hq. fold g E0 in Hq.
  pose proof (HN n Hn) as Hpow.
  assert (H0 : 0 <= 0.88 ^ n) by (apply pow_le; lra).
  rewrite Rabs_right in Hpow by lra.
  assert (Hd0 : 0 <= rest_dist q) by (unfold rest_dist, dist; apply sqrt_pos).
  assert (Hle : 0.88 ^ n * E0 <= y * (E0 + 1)) by nra.
  rewrite Hy in Hle.
  assert (rest_dist q * rest_dist q <= eps * eps) by nra.
  nra.
Qed.

Lemma rest_position_converges_witness :
  let m := repeat (repeat displaced_point cols) rows_ in
  0.04 <= 0.08 <= 0.08 /\ Forall (fun node => Node.force node = 0) [Node.mk 0 0 0]
  /\ length m = rows_ /\ Forall (fun row => length row = cols) m
  /\ m !! 0%nat ≫= (fun row => row !! 0%nat) = Some displaced_point /\ 0 < 1
  /\ (forall q, energy 0.08 (Mesh.step_point 0.08 [Node.mk 0 0 0] q) = 0.88 * energy 0.08 q)
  /\ exists N, forall n, (N <= n)%nat ->
       exists m' p', steps 0.08 [Node.mk 0 0 0] n m = Done m'
         /\ m' !! 0%nat ≫= (fun row => row !! 0%nat) = Some p' /\ rest_dist p' <= 1.
Proof.
  intros m.
  assert (H1 : 0.04 <= 0.08 <= 0.08) by lra.
  assert (H2 : Forall (fun node => Node.force node = 0) [Node.mk 0 0 0]) by (repeat constructor).
  assert (H3 : length m = rows_) by reflexivity.
  assert (H4 : Forall (fun row => length row = cols) m) by (repeat constructor).
  assert (H5 : m !! 0%nat ≫= (fun row => row !! 0%nat) = Some displaced_point) by reflexivity.
  assert (H6 : (0 < 1)%R) by lra.
  do 6 (split; [assumption|]).
  pose proof (rest_position_converges 0.08 [Node.mk 0 0 0] m 0 0 displaced_point 1
    H1 H2 H3 H4 H5 H6) as (Hstep & _ & Hconv).
  split; [exact Hstep|exact Hconv].
Defined.

Lemma step_free (a b : R) :
  Mesh.step_point 0.08 [] (GridPoint.mk a 0 b 0 0 0)
  = GridPoint.mk (a + (b + (0 - a) * 0.08) * 0.88) 0 ((b + (0 - a) * 0.08) * 0.88) 0 0 0.
Proof.
  unfold Mesh.step_point. simpl. f_equal; ring.
Qed.

Lemma iter6_displaced :
  Nat.iter 6 (Mesh.step_point 0.08 []) displaced_point
  = GridPoint.mk (11019735036593924 / 2384185791015625) 0
      (-46160822933658576 / 2384185791015625) 0 0 0.
Proof.
  set (f := Mesh.step_point 0.08 []).
  change (Nat.iter 6 f displaced_point) with (f (f (f (f (f (f displaced_point)))))).
  unfold f, displaced_point. rewrite !step_free. f_equal; lra.
Qed.

(** C8 (as stated) fails: the damped spring overshoots, so the distance to
    the rest position grows again between the sixth and the seventh
    frame for a point released at distance 100 with no velocity. *)
Lemma rest_dist_not_monotone :
  let m := repeat (repeat displaced_point cols) rows_ in
  exists m6 m7 p6 p7,
    steps 0.08 [Node.mk 0 0 0] 6 m = Done m6 /\ steps 0.08 [Node.mk 0 0 0] 7 m = Done m7
    /\ m6 !! 0%nat ≫= (fun row => row !! 0%nat) = Some p6
    /\ m7 !! 0%nat ≫= (fun row => row !! 0%nat) = Some p7
    /\ rest_dist p6 < rest_dist p7.
Proof.
  intros m.
  assert (Hlen : length m = rows_) by reflexivity.
  assert (Hrect : Forall (fun row => length row = cols) m) by (repeat constructor).
  assert (Hz : Forall (fun node => Node.force node = 0) [Node.mk 0 0 0]) by (repeat constructor).
  destruct (steps_rect 0.08 [Node.mk 0 0 0] 6 m Hlen Hrect) as (H6 & _ & _).
  destruct (steps_rect 0.08 [Node.mk 0 0 0] 7 m Hlen Hrect) as (H7 & _ & _).
  eexists _, _, _, _. split; [exact H6|]. split; [exact H7|].
  split; [rewrite lookup_iter_pointwise; reflexivity|].
  split; [rewrite lookup_iter_pointwise; reflexivity|].
  rewrite (iter_inactive _ _ 6), (iter_inactive _ _ 7) by exact Hz.
  rewrite (Nat.iter_succ 6).
  rewrite iter6_displaced, step_free.
  unfold rest_dist, dist. cbn [GridPoint.x GridPoint.y GridPoint.rest_x GridPoint.rest_y].
  set (x6 := 11019735036593924 / 2384185791015625).
  set (x7 := x6 + (-46160822933658576 / 2384185791015625 + (0 - x6) * 0.08) * 0.88).
  assert (Hx6 : x6 = 11019735036593924 / 2384185791015625) by reflexivity.
  assert (Hx7 : x7 = -18985986557251146956 / 1490116119384765625) by (unfold x7, x6; lra).
  replace ((0 - x6) * (0 - x6) + (0 - 0) * (0 - 0)) with (x6 * x6) by ring.
  replace ((0 - x7) * (0 - x7) + (0 - 0) * (0 - 0)) with ((- x7) * (- x7)) by ring.
  rewrite !sqrt_square by lra. lra.
Qed.

End MeshConvergence.

Module VoronoiFacts.
Import Voronoi.
Local Open Scope R_scope.

Section Scan.
Variables sx sy : R.

End Scan.






Lemma fold_push_sentinel (L acc : list (Z * Z)) :
  fold_left (fun cm s => push (-1) s cm) L [(-1, acc)]%Z = [(-1, acc ++ L)]%Z.
Proof.
  revert acc. induction L as [|x L IH]; intros acc; simpl.
  - rewrite app_nil_r. done.
  - rewrite IH, <- app_assoc. done.
Qed.

Lemma fold_push_sentinel_nil (L : list (Z * Z)) :
  L <> [] -> fold_left (fun cm s => push (-1) s cm) L [] = [(-1, L)]%Z.
Proof.
  destruct L as [|x L]; intros Hne; [done|].
  cbn [fold_left]. change (push (-1) x []) with [((-1)%Z, [x])].
  rewrite fold_push_sentinel. done.
Qed.

Lemma samples_nonempty : samples <> [].
Proof. intros H. vm_compute in H. discriminate. Qed.

End VoronoiFacts.

Module VoronoiTheorems.
Import Voronoi VoronoiFacts.
Local Open Scope R_scope.





(** C6 (as amended): with no node, every sample gets the sentinel index
    [-1], and [cellMap] is not empty: it holds the single key [-1] with
    all samples in scan order. *)
Theorem partition_no_sites :
  (forall s, classify (voronoiSites []) s = (-1)%Z)
  /\ partition (voronoiSites []) = [((-1)%Z, samples)].
Proof.
  split; [reflexivity|].
  unfold partition. change (classify (voronoiSites [])) with (fun _ : Z * Z => (-1)%Z).
  apply fold_push_sentinel_nil, samples_nonempty.
Qed.

(** C6 as stated fails: the mapping for an empty node set is not empty. *)
Lemma partition_no_sites_nonempty : partition (voronoiSites []) <> [].
Proof.
  assert (E : partition (voronoiSites []) = [((-1)%Z, samples)]).
  { unfold partition. change (classify (voronoiSites [])) with (fun _ : Z * Z => (-1)%Z).
    apply fold_push_sentinel_nil, samples_nonempty. }
  rewrite E. discriminate.
Qed.

End VoronoiTheorems.

Module JsStringFacts.
Import JsString.
Local Open Scope Z_scope.

(** The code points of a run, listed. *)
Definition run_members (r : Z * Z * Z * Z) : list Z :=
  let '(first, count, stride, _) := r in
  (fun i => first + Z.of_nat i * stride) <$> seq 0 (Z.to_nat count).

(** A code point that [toLowerCase] leaves as it is, whatever surrounds it. *)
Definition stable (c : Z) : bool := negb (c =? 931) && bool_decide (lower_cp c = [c]).

(** The image of every member of a run is stable. *)
Definition run_images_stable (r : Z * Z * Z * Z) : bool :=
  let '(_, _, _, delta) := r in forallb (fun c => stable (c + delta)) (run_members r).

Lemma runs_shape : forallb (fun r => match r with (_, count, stride, _) =>
    (0 <? stride) && (0 <=? count) end) lower_runs = true.
Proof. vm_compute. reflexivity. Qed.

Lemma runs_images : forallb run_images_stable lower_runs = true.
Proof. vm_compute. reflexivity. Qed.

Lemma in_run_member c r : In r lower_runs -> in_run c r = true -> c ∈ run_members r.
Proof.
  intros Hin Hc. pose proof runs_shape as Hs. rewrite forallb_forall in Hs.
  specialize (Hs _ Hin). destruct r as [[[f n] s] d].
  apply andb_prop in Hs as [Hs Hn]. apply Z.ltb_lt in Hs. apply Z.leb_le in Hn.
  unfold in_run in Hc. apply andb_prop in Hc as [Hc Hq]. apply andb_prop in Hc as [Hf Hm].
  apply Z.leb_le in Hf. apply Z.eqb_eq in Hm. apply Z.ltb_lt in Hq.
  unfold run_members. apply list_elem_of_fmap.
  pose proof (Z.div_mod (c - f) s ltac:(lia)) as Hdm.
  assert (Hq0 : 0 <= (c - f) / s) by (apply Z.div_pos; lia).
  exists (Z.to_nat ((c - f) / s)). split.
  - rewrite Z2Nat.id by lia. lia.
  - apply elem_of_seq. lia.
Qed.

Lemma lower_cp_run c r :
  find (in_run c) lower_runs = Some r -> stable (c + r.2) = true.
Proof.
  intros Hf. apply find_some in Hf as [Hin Hc].
  pose proof (in_run_member _ _ Hin Hc) as Hm.
  pose proof runs_images as Hi. rewrite forallb_forall in Hi. specialize (Hi _ Hin).
  destruct r as [[[f n] s] d]. unfold run_images_stable in Hi.
  rewrite forallb_forall in Hi. apply Hi. by apply list_elem_of_In.
Qed.

Lemma lower_cp_stable c : c <> 931 -> forallb stable (lower_cp c) = true.
Proof.
  intros Hs. unfold lower_cp at 1. destruct (c =? 304) eqn:E304.
  - vm_compute. reflexivity.
  - destruct (find (in_run c) lower_runs) as [r|] eqn:Ef.
    + destruct r as [[[f n] s] d]. cbn [forallb].
      pose proof (lower_cp_run _ _ Ef) as Hr. cbn [snd] in Hr. by rewrite Hr.
    + cbn [forallb]. rewrite andb_true_r. unfold stable. apply Z.eqb_neq in Hs. rewrite Hs. simpl.
      rewrite bool_decide_eq_true. unfold lower_cp. by rewrite E304, Ef.
Qed.

Lemma lower_from_stable b s : forallb stable (lower_from b s) = true.
Proof.
  revert b. induction s as [|c s IH]; intros b; [reflexivity|].
  cbn [lower_from]. rewrite forallb_app, IH, andb_true_r.
  destruct (c =? 931) eqn:E.
  - destruct (final_sigma b s); vm_compute; reflexivity.
  - apply lower_cp_stable. by apply Z.eqb_neq.
Qed.

Lemma lower_from_fix b s : forallb stable s = true -> lower_from b s = s.
Proof.
  revert b. induction s as [|c s IH]; intros b Hs; [reflexivity|].
  cbn [forallb] in Hs. apply andb_prop in Hs as [Hc Hs].
  unfold stable in Hc. apply andb_prop in Hc as [Hc Hl].
  apply negb_true_iff in Hc. apply bool_decide_eq_true in Hl.
  cbn [lower_from]. rewrite Hc, Hl, IH by done. reflexivity.
Qed.

(** [toLowerCase] yields stable code points only. *)
Lemma to_lower_stable s : forallb stable (to_lower s) = true.
Proof. apply lower_from_stable. Qed.

Lemma to_lower_idem s : to_lower (to_lower s) = to_lower s.
Proof. apply lower_from_fix, to_lower_stable. Qed.
End JsStringFacts.

Module LayoutFacts.
Import JsString JsStringFacts Layout.

Lemma keyToNode_value : keyToNode =
  [(js "q", 0); (js "w", 1); (js "e", 2); (js "r", 3); (js "t", 4); (js "y", 5);
   (js "u", 6); (js "i", 7); (js "o", 8); (js "p", 9); (js "a", 10); (js "s", 11);
   (js "d", 12); (js "f", 13); (js "g", 14); (js "h", 15); (js "j", 16); (js "k", 17);
   (js "l", 18); (js "z", 19); (js "x", 20); (js "c", 21); (js "v", 22); (js "b", 23);
   (js "n", 24); (js "m", 25)]%nat.
Proof. reflexivity. Qed.

Lemma nodes0_length : length nodes0 = 26%nat.
Proof. reflexivity. Qed.

Lemma own_lookup_in k km i : own_lookup k km = Some i -> ∃ k', (k', i) ∈ km.
Proof.
  induction km as [|[k' j] km IH]; simpl; [discriminate|].
  destruct (jstr_eqb k k'); intros H.
  - injection H as <-. exists k'. left.
  - destruct (IH H) as [k'' Hin]. exists k''. by right.
Qed.

Lemma keyToNode_bound k i : own_lookup k keyToNode = Some i -> (i < 26)%nat.
Proof.
  intros H. destruct (own_lookup_in _ _ _ H) as [k' Hin].
  assert (HF : Forall (fun p : jstr * nat => (p.2 < 26)%nat) keyToNode).
  { rewrite keyToNode_value. repeat constructor; simpl; lia. }
  rewrite Forall_forall in HF. exact (HF _ Hin).
Qed.

(** Only two inherited member names of a plain object are lower case: every
    other one has an upper-case ASCII letter, which [toLowerCase] never
    yields. *)
Lemma inherited_lower s :
  to_lower s <> js "constructor" -> to_lower s <> js "__proto__" ->
  existsb (jstr_eqb (to_lower s)) object_prototype_props = false.
Proof.
  intros Hc Hp. destruct (existsb _ _) eqn:E; [|reflexivity]. exfalso.
  apply existsb_exists in E as [x [Hin Hx]]. apply bool_decide_eq_true in Hx.
  pose proof (to_lower_stable s) as Hst. rewrite Hx in Hst, Hc, Hp.
  assert (Hall : forallb (fun y => negb (forallb stable y) || jstr_eqb y (js "constructor")
                                   || jstr_eqb y (js "__proto__")) object_prototype_props = true)
    by (vm_compute; reflexivity).
  rewrite forallb_forall in Hall. specialize (Hall _ Hin).
  rewrite Hst in Hall. cbn [negb orb] in Hall. apply orb_prop in Hall as [Hall|Hall];
    apply bool_decide_eq_true in Hall; contradiction.
Qed.

Lemma set_force_num f i nodes :
  (i < length nodes)%nat -> set_force f (JNum i) nodes = Done (with_force f i nodes).
Proof.
  intros Hi. unfold set_force, with_force.
  destruct (lookup_lt_is_Some_2 _ _ Hi) as [node ->]. reflexivity.
Qed.

Lemma with_force_length f i nodes : length (with_force f i nodes) = length nodes.
Proof. unfold with_force. destruct (nodes !! i); [apply length_insert|done]. Qed.

Lemma with_force_twice f g i nodes : with_force f i (with_force g i nodes) = with_force f i nodes.
Proof.
  unfold with_force. destruct (nodes !! i) as [node|] eqn:E; [|by rewrite E].
  rewrite list_lookup_insert_eq by (eapply lookup_lt_Some; eauto).
  cbn -[list_insert]. by rewrite list_insert_insert_eq.
Qed.

Lemma with_force_force f i nodes :
  (i < length nodes)%nat -> Node.force <$> (with_force f i nodes !! i) = Some f.
Proof.
  intros Hi. unfold with_force. destruct (lookup_lt_is_Some_2 _ _ Hi) as [node ->].
  rewrite list_lookup_insert_eq by done. reflexivity.
Qed.
End LayoutFacts.

Module LayoutTheorems.
Import JsString JsStringFacts Layout LayoutFacts.

(** Claim C4, on the keys the code handles as the claim says.  On the node
    array built by [setup] (26 nodes), for every key whose
    [toLowerCase()] is neither ["constructor"] nor ["__proto__"] (in
    particular every one-character key; U+212A KELVIN SIGN lower-cases to
    ["k"] and drives node 17): if the key is
    mapped, [keyPressed] sets that node's force to 1 and [keyReleased] sets
    it to 0, both returning normally, a release after a press leaves force
    0, and a second press or release changes nothing; if it is not mapped,
    both handlers return normally and leave every node unchanged. *)
Theorem key_handlers_total (sym : jstr) (nodes : list Node.t) :
  length nodes = length nodes0 ->
  to_lower sym <> js "constructor" -> to_lower sym <> js "__proto__" ->
  match own_lookup (to_lower sym) keyToNode with
  | Some i =>
      keyPressed sym nodes = Done (with_force 1 i nodes) /\
      keyReleased sym nodes = Done (with_force 0 i nodes) /\
      keyReleased sym (with_force 1 i nodes) = Done (with_force 0 i nodes) /\
      keyPressed sym (with_force 1 i nodes) = Done (with_force 1 i nodes) /\
      keyReleased sym (with_force 0 i nodes) = Done (with_force 0 i nodes) /\
      Node.force <$> (with_force 1 i nodes !! i) = Some 1%R /\
      Node.force <$> (with_force 0 i nodes !! i) = Some 0%R
  | None => keyPressed sym nodes = Done nodes /\ keyReleased sym nodes = Done nodes
  end.
Proof.
  intros Hlen Hc Hp. pose proof (inherited_lower _ Hc Hp) as Hproto.
  unfold keyPressed, keyReleased, set_key, has_prop, get_prop.
  destruct (own_lookup (to_lower sym) keyToNode) as [i|] eqn:E.
  - assert (Hi : (i < length nodes)%nat)
      by (rewrite Hlen, nodes0_length; exact (keyToNode_bound _ _ E)).
    assert (Hi' : ∀ f, (i < length (with_force f i nodes))%nat)
      by (intros f; by rewrite with_force_length).
    rewrite !set_force_num by auto. rewrite !with_force_twice.
    repeat split; auto using with_force_force.
  - rewrite Hproto. split; reflexivity.
Qed.

Lemma key_handlers_total_witness :
  (length nodes0 = length nodes0 /\ to_lower [8490%Z] <> js "constructor" /\
   to_lower [8490%Z] <> js "__proto__") /\
  keyPressed [8490%Z] nodes0 = Done (with_force 1 17 nodes0).
Proof.
  assert (H : length nodes0 = length nodes0 /\ to_lower [8490%Z] <> js "constructor" /\
              to_lower [8490%Z] <> js "__proto__")
    by (split; [reflexivity|split; vm_compute; discriminate]).
  split; [exact H|].
  destruct H as (H1 & H2 & H3).
  pose proof (key_handlers_total [8490%Z] nodes0 H1 H2 H3) as Hk.
  assert (E : own_lookup (to_lower [8490%Z]) keyToNode = Some 17%nat)
    by (vm_compute; reflexivity).
  rewrite E in Hk. exact (proj1 Hk).
Defined.

(** Claim C4, failing input: the lower-case key ["constructor"] passes
    [k in keyToNode] through [Object.prototype], [keyToNode[k]] is a
    function, [nodes[keyToNode[k]]] is [undefined], and [keyPressed] throws. *)
Lemma keyPressed_constructor_raises :
  keyPressed (js "constructor") nodes0 = Raised nodes0.
Proof. unfold keyPressed, set_key. rewrite keyToNode_value. reflexivity. Qed.
End LayoutTheorems.

Module SwarmFacts.
Import Swarm.
Local Open Scope R_scope.

(** Overwriting position [i] of a list and keeping the old value aside. *)
Lemma insert_perm {B} (l : list B) i a v :
  l !! i = Some a -> <[i := v]> l ++ [a] ≡ₚ l ++ [v].
Proof.
  intros H. pose proof (lookup_lt_Some _ _ _ H) as Hi.
  pose proof (take_drop_middle l i a H) as El.
  rewrite (insert_take_drop l i v Hi).
  set (T := take i l) in *. set (D := drop (S i) l) in *.
  rewrite <- El. rewrite <- !app_assoc. apply Permutation_app_head. simpl.
  rewrite (Permutation_app_comm D [a]), (Permutation_app_comm D [v]). simpl.
  apply perm_swap.
Qed.

(** Exchanging the values at positions [i] and [j] permutes the list. *)
Lemma swap_perm {B} (l : list B) i j a b :
  l !! i = Some a -> l !! j = Some b -> <[j := a]> (<[i := b]> l) ≡ₚ l.
Proof.
  intros Hi Hj. destruct (decide (i = j)) as [<-|Hne].
  - assert (a = b) as <- by congruence.
    rewrite list_insert_insert_eq, (list_insert_id _ _ _ Hi). reflexivity.
  - assert (Hm : <[i := b]> l !! j = Some b) by (rewrite list_lookup_insert_ne; auto).
    apply (Permutation_app_inv_r [b]).
    rewrite (insert_perm _ _ _ _ Hm), (insert_perm _ _ _ _ Hi). reflexivity.
Qed.

Section Cells.
Context {A : Type}.
Implicit Types (cells : list (cell A)) (c ci cj : cell A).

(** [cells'] differs from [cells] only by a permutation of the [img] fields. *)
Definition same_but_img cells cells' : Prop :=
  img <$> cells' ≡ₚ img <$> cells /\ other_fields <$> cells' = other_fields <$> cells.

Lemma same_but_img_refl cells : same_but_img cells cells.
Proof. split; reflexivity. Qed.

Lemma same_but_img_trans (c1 c2 c3 : list (cell A)) :
  same_but_img c1 c2 -> same_but_img c2 c3 -> same_but_img c1 c3.
Proof. intros [H1 H2] [H3 H4]. split; [by rewrite H3|congruence]. Qed.

Lemma same_but_img_length cells cells' :
  same_but_img cells cells' -> length cells' = length cells.
Proof.
  intros [_ H]. apply (f_equal length) in H. by rewrite !length_fmap in H.
Qed.

Lemma cell_at_lookup i cells c : cell_at i cells = Some c -> cells !! Z.to_nat i = Some c.
Proof. unfold cell_at. destruct (0 <=? i)%Z; [done|discriminate]. Qed.

Lemma cell_at_insert i k v cells c :
  cell_at i cells = Some c -> ∃ c', cell_at i (<[k := v]> cells) = Some c'.
Proof.
  unfold cell_at. destruct (0 <=? i)%Z; [|discriminate]. intros H.
  apply lookup_lt_is_Some_2. rewrite length_insert. exact (lookup_lt_Some _ _ _ H).
Qed.

Lemma cell_at_in_range i cells :
  (0 <= i < Z.of_nat (length cells))%Z -> is_Some (cell_at i cells).
Proof.
  intros Hi. unfold cell_at. destruct (Z.leb_spec 0 i); [|lia].
  apply lookup_lt_is_Some_2. lia.
Qed.

Lemma write_img_some i v cells c :
  cell_at i cells = Some c -> write_img i v cells = Some (<[Z.to_nat i := set_img v c]> cells).
Proof. intros H. unfold write_img. by rewrite H. Qed.

Lemma set_img_same c : set_img (img c) c = c.
Proof. by destruct c. Qed.

Lemma other_fields_write k v cells c :
  cells !! k = Some c -> other_fields <$> <[k := set_img v c]> cells = other_fields <$> cells.
Proof.
  intros H. rewrite list_fmap_insert. apply list_insert_id.
  by rewrite list_lookup_fmap, H.
Qed.

Lemma swap_img_raised_i i j cells : cell_at i cells = None -> swap_img i j cells = Raised cells.
Proof. intros H. unfold swap_img. by rewrite H. Qed.

Lemma swap_img_raised_j i j cells c :
  cell_at i cells = Some c -> cell_at j cells = None -> swap_img i j cells = Raised cells.
Proof. intros Hi Hj. unfold swap_img. by rewrite Hi, Hj. Qed.

Lemma swap_img_same i j cells : same_but_img cells (store (swap_img i j cells)).
Proof.
  destruct (cell_at i cells) as [ci|] eqn:Ei;
    [|rewrite swap_img_raised_i by done; apply same_but_img_refl].
  destruct (cell_at j cells) as [cj|] eqn:Ej;
    [|rewrite (swap_img_raised_j _ _ _ _ Ei Ej); apply same_but_img_refl].
  set (cells1 := <[Z.to_nat i := set_img (img cj) ci]> cells).
  destruct (cell_at_insert j (Z.to_nat i) (set_img (img cj) ci) cells cj Ej) as [cj' Ej'].
  unfold swap_img. rewrite Ei, Ej, (write_img_some _ _ _ _ Ei).
  fold cells1. fold cells1 in Ej'. rewrite (write_img_some _ _ _ _ Ej'). simpl.
  pose proof (cell_at_lookup _ _ _ Ei) as Li.
  pose proof (cell_at_lookup _ _ _ Ej) as Lj.
  pose proof (cell_at_lookup _ _ _ Ej') as Lj'.
  split.
  - unfold cells1. rewrite !list_fmap_insert. simpl.
    apply swap_perm; rewrite list_lookup_fmap; [by rewrite Li|by rewrite Lj].
  - rewrite (other_fields_write _ _ _ _ Lj'). unfold cells1.
    by rewrite (other_fields_write _ _ _ _ Li).
Qed.

Lemma swaps_same fuel draws n cells :
  same_but_img cells (store (swaps fuel draws n cells)).
Proof.
  revert n cells. induction fuel as [|fuel IH]; intros n cells; simpl;
    [apply same_but_img_refl|].
  pose proof (swap_img_same
    (floor (random1 (draws n).1 (INR (length cells))))
    (floor (random1 (draws n).2 (INR (length cells)))) cells) as Hs.
  destruct (swap_img _ _ cells) as [c|c]; simpl in *; [|exact Hs].
  eapply same_but_img_trans; [exact Hs|apply IH].
Qed.

Lemma reshuffles_same events cells :
  same_but_img cells (store (reshuffles events cells)).
Proof.
  revert cells. induction events as [|ev events IH]; intros cells; simpl;
    [apply same_but_img_refl|].
  pose proof (swaps_same swapsPerInterval ev 0 cells) as Hs. unfold reshuffle.
  destruct (swaps _ ev 0 cells) as [c|c]; simpl in *; [|exact Hs].
  eapply same_but_img_trans; [exact Hs|apply IH].
Qed.

Lemma swap_self i cells :
  (0 <= i < Z.of_nat (length cells))%Z -> swap_img i i cells = Done cells.
Proof.
  intros Hi. destruct (cell_at_in_range _ _ Hi) as [c Ec].
  pose proof (cell_at_lookup _ _ _ Ec) as Lc.
  unfold swap_img. rewrite Ec, (write_img_some _ _ _ _ Ec), set_img_same,
    (list_insert_id _ _ _ Lc), (write_img_some _ _ _ _ Ec), set_img_same,
    (list_insert_id _ _ _ Lc).
  reflexivity.
Qed.
End Cells.

Lemma swap_img_is_done {A} i j (cells : list (cell A)) ci cj :
  cell_at i cells = Some ci -> cell_at j cells = Some cj -> ∃ c', swap_img i j cells = Done c'.
Proof.
  intros Ei Ej.
  destruct (cell_at_insert j (Z.to_nat i) (set_img (img cj) ci) cells cj Ej) as [cj' Ej'].
  unfold swap_img. rewrite Ei, Ej, (write_img_some _ _ _ _ Ei), (write_img_some _ _ _ _ Ej').
  eexists; reflexivity.
Qed.

Lemma swap_img_self {A} i (cells : list (cell A)) :
  swap_img i i cells =
    if bool_decide (0 <= i < Z.of_nat (length cells))%Z then Done cells else Raised cells.
Proof.
  case_bool_decide as Hi; [by apply swap_self|].
  apply swap_img_raised_i. unfold cell_at. destruct (Z.leb_spec 0 i); [|done].
  apply lookup_ge_None_2. lia.
Qed.

(** [floor] of a number in [[0, n)] is an index below [n]. *)
Lemma floor_range r (n : nat) : 0 <= r < INR n -> (0 <= floor r < Z.of_nat n)%Z.
Proof.
  intros [H0 H1]. unfold floor. destruct (base_Int_part r) as [Hle Hgt].
  rewrite INR_IZR_INZ in H1. split.
  - apply Z.lt_succ_r. apply lt_IZR. rewrite succ_IZR. lra.
  - apply lt_IZR. lra.
Qed.

Lemma floor_zero : floor 0 = 0%Z.
Proof.
  unfold floor. destruct (base_Int_part 0) as [Hle Hgt].
  assert (H1 : (Int_part 0 <= 0)%Z) by (apply le_IZR; lra).
  assert (H2 : (-1 < Int_part 0)%Z) by (apply lt_IZR; lra).
  lia.
Qed.

Lemma random_index u (n : nat) :
  0 <= u < 1 -> (0 < n)%nat -> (0 <= floor (random1 u (INR n)) < Z.of_nat n)%Z.
Proof.
  intros Hu Hn. apply floor_range. unfold random1.
  assert (0 < INR n) by (apply lt_0_INR; lia). nra.
Qed.
End SwarmFacts.

Module SwarmTheorems.
Import Swarm SwarmFacts.
Local Open Scope R_scope.

(** Claim C5.  For every list of cells and every sequence of reshuffle
    events (each one 36 swaps of [img] between the cells at indices
    [floor(random(spermCells.length))], whatever the drawn values), the
    array left behind has the same length, its [img] fields are a
    permutation of the original ones, and every other field of every cell
    ([x], [y], [vx], [vy], [meshIdx], [scale], [angle], [angleSpeed]) is
    unchanged; a self-swap [i = j] at an index of the array leaves the
    array as it is and returns normally. *)
Theorem reshuffles_preserve_cells {A} (events : list (nat -> R * R)) (cells : list (cell A)) :
  let cells' := store (reshuffles events cells) in
  length cells' = length cells /\
  img <$> cells' ≡ₚ img <$> cells /\
  other_fields <$> cells' = other_fields <$> cells /\
  (∀ i, swap_img i i cells =
     if bool_decide (0 <= i < Z.of_nat (length cells))%Z then Done cells else Raised cells).
Proof.
  intros cells'. pose proof (reshuffles_same events cells) as Hs.
  split; [exact (same_but_img_length _ _ Hs)|].
  split; [exact (proj1 Hs)|]. split; [exact (proj2 Hs)|].
  intros i. apply swap_img_self.
Qed.

Lemma swaps_nonempty_done {A} draws (cells : list (cell A)) fuel n :
  (∀ m, 0 <= (draws m).1 < 1 /\ 0 <= (draws m).2 < 1) ->
  cells <> [] -> is_done (swaps fuel draws n cells) = true.
Proof.
  intros Hd. revert n cells. induction fuel as [|fuel IH]; intros n cells Hne; [reflexivity|].
  cbn [swaps].
  assert (Hlen : (0 < length cells)%nat) by (destruct cells; [done|simpl; lia]).
  destruct (Hd n) as [Hu Hv].
  destruct (cell_at_in_range _ cells (random_index _ _ Hu Hlen)) as [ci Ei].
  destruct (cell_at_in_range _ cells (random_index _ _ Hv Hlen)) as [cj Ej].
  destruct (swap_img_is_done _ _ _ _ _ Ei Ej) as [c' E].
  pose proof (same_but_img_length _ _ (swap_img_same
    (floor (random1 (draws n).1 (INR (length cells))))
    (floor (random1 (draws n).2 (INR (length cells)))) cells)) as Hl.
  rewrite E in Hl |- *. simpl in Hl |- *. apply IH.
  intros ->. simpl in Hl. lia.
Qed.

Lemma reshuffle_empty_raises {A} draws : reshuffle draws ([] : list (cell A)) = Raised [].
Proof.
  unfold reshuffle, swapsPerInterval. cbn [swaps].
  rewrite swap_img_raised_i; [reflexivity|].
  unfold cell_at. destruct (0 <=? _)%Z; reflexivity.
Qed.

(** Claim C10.  With every value of [Math.random()] in [[0, 1)]: for a
    non-empty array of length [n], each index [floor(random(n))] lies in
    [[0, n)]; for the empty array the index is 0 and [spermCells[0]] is
    [undefined]; so a reshuffle event returns normally exactly when the
    array is non-empty (on the empty array it throws). *)
Theorem reshuffle_total_iff_nonempty {A} (draws : nat -> R * R) (cells : list (cell A)) :
  (∀ m, 0 <= (draws m).1 < 1 /\ 0 <= (draws m).2 < 1) ->
  (∀ u, 0 <= u < 1 -> cells <> [] ->
     (0 <= floor (random1 u (INR (length cells))) < Z.of_nat (length cells))%Z) /\
  (cells = [] -> ∀ u, floor (random1 u (INR (length cells))) = 0%Z /\ cell_at 0 cells = None) /\
  (is_done (reshuffle draws cells) = true <-> cells <> []).
Proof.
  intros Hd. split; [|split].
  - intros u Hu Hne. apply random_index; [exact Hu|]. destruct cells; [done|simpl; lia].
  - intros -> u. split; [|reflexivity]. simpl. unfold random1. rewrite Rmult_0_r.
    apply floor_zero.
  - split.
    + intros Hdone ->. by rewrite reshuffle_empty_raises in Hdone.
    + intros Hne. by apply swaps_nonempty_done.
Qed.

Lemma reshuffle_total_iff_nonempty_witness :
  (∀ m, 0 <= ((fun _ : nat => (0, 0)) m).1 < 1 /\ 0 <= ((fun _ : nat => (0, 0)) m).2 < 1) /\
  is_done (reshuffle (fun _ => (0, 0)) [mkCell 0 0 0 0 7%nat None 1 0 0]) = true.
Proof.
  assert (Hd : ∀ m, 0 <= ((fun _ : nat => (0, 0)) m).1 < 1 /\
                    0 <= ((fun _ : nat => (0, 0)) m).2 < 1)
    by (intros m; simpl; lra).
  split; [exact Hd|].
  apply (proj2 (proj2 (reshuffle_total_iff_nonempty (fun _ => (0, 0)) [mkCell 0 0 0 0 7%nat None 1 0 0] Hd))).
  discriminate.
Defined.
End SwarmTheorems.

Module ScatterFacts.
Import Swarm.
Local Open Scope R_scope.

Lemma dist_sym x1 y1 x2 y2 : dist x1 y1 x2 y2 = dist x2 y2 x1 y1.
Proof. unfold dist. f_equal. ring. Qed.

Section Scatter.
Context {A : Type}.
Variable rng : nat -> R.
Variables width height : R.
Variable assets : list A.
Implicit Types (cells : list (cell (option A))).

Lemma conflict_false cells cx cy c :
  conflict cells cx cy = false -> c ∈ cells -> minSpacing <= dist (x c) (y c) cx cy.
Proof.
  intros H Hin. destruct (Rlt_dec (dist (x c) (y c) cx cy) minSpacing) as [Hlt|Hge]; [|lra].
  exfalso. assert (E : conflict cells cx cy = true).
  { apply existsb_exists. exists c. split; [by apply list_elem_of_In|].
    unfold ltb. by destruct (Rlt_dec _ _). }
  congruence.
Qed.

(** The candidate is defined once the loop body has run. *)
Lemma try_place_defined fuel attempts k candidate cells :
  candidate <> None \/ ((attempts < 30)%nat /\ (0 < fuel)%nat) ->
  (try_place rng width height fuel attempts k candidate cells).1.1 <> None.
Proof.
  revert attempts k candidate. induction fuel as [|fuel IH]; intros attempts k candidate H;
    cbn [try_place].
  - destruct H as [H|H]; [exact H|lia].
  - destruct (attempts <? 30)%nat eqn:Ea.
    + destruct (conflict _ _ _); [apply IH; by left|simpl; discriminate].
    + destruct H as [H|H]; [exact H|]. apply Nat.ltb_nlt in Ea. lia.
Qed.

(** Leaving the loop with [attempts < 30] means leaving it by [break]:
    the candidate is in conflict with no earlier cell. *)
Lemma try_place_break fuel attempts k candidate cells :
  (30 <= attempts + fuel)%nat ->
  match try_place rng width height fuel attempts k candidate cells with
  | (candidate', attempts', _) =>
      (attempts' < 30)%nat -> ∃ cx cy, candidate' = Some (cx, cy) /\ conflict cells cx cy = false
  end.
Proof.
  revert attempts k candidate. induction fuel as [|fuel IH]; intros attempts k candidate H;
    cbn [try_place].
  - intros Ha. lia.
  - destruct (attempts <? 30)%nat eqn:Ea.
    + destruct (conflict cells _ _) eqn:Ec; [apply IH; lia|].
      intros _. eexists _, _. split; [reflexivity|exact Ec].
    + intros Ha. apply Nat.ltb_nlt in Ea. lia.
Qed.

(** The cells placed so far and their [attempts]: every cell left by
    [break] is at least [minSpacing] away from every earlier cell. *)
Definition spaced (st : scatter_state (A := A)) : Prop :=
  let '(cells, trace, _) := st in
  length cells = length trace /\
  ∀ a b ca cb tb, (a < b)%nat -> cells !! a = Some ca -> cells !! b = Some cb ->
    trace !! b = Some tb -> (tb < 30)%nat ->
    minSpacing <= dist (x ca) (y ca) (x cb) (y cb).

Lemma place_cell_spaced st i :
  spaced st ->
  ∃ st', place_cell rng width height assets st i = Done st' /\ spaced st' /\
    length st'.1.1 = S (length st.1.1).
Proof.
  destruct st as [[cells trace] k]. intros [Hlen Hsp]. unfold place_cell.
  pose proof (try_place_defined 30 0 k None cells) as Hdef.
  pose proof (try_place_break 30 0 k None cells) as Hbrk.
  destruct (try_place rng width height 30 0 k None cells) as [[cand attempts] k1].
  destruct cand as [[cx cy]|]; [|exfalso; apply Hdef; [right; lia|reflexivity]].
  eexists. split; [reflexivity|]. simpl. rewrite length_app. simpl. split; [|lia].
  split; [rewrite !length_app; simpl; lia|].
  intros a b ca cb tb Hab Ha Hb Htb Ht.
  assert (Hb_le : (b < S (length cells))%nat)
    by (apply lookup_lt_Some in Hb; rewrite length_app in Hb; simpl in Hb; lia).
  assert (Ha' : cells !! a = Some ca)
    by (rewrite lookup_app_l in Ha by lia; exact Ha).
  destruct (decide (b = length cells)) as [->|Hne].
  - rewrite lookup_app_r, Nat.sub_diag in Hb by lia. simpl in Hb. injection Hb as <-.
    rewrite Hlen, lookup_app_r, Nat.sub_diag in Htb by lia. simpl in Htb.
    injection Htb as <-. destruct (Hbrk ltac:(lia) Ht) as (cx' & cy' & Eq & Ec).
    injection Eq as <- <-. simpl.
    apply (conflict_false cells); [exact Ec|]. by eapply list_elem_of_lookup_2.
  - rewrite lookup_app_l in Hb by lia. rewrite lookup_app_l in Htb by lia.
    exact (Hsp a b ca cb tb Hab Ha' Hb Htb Ht).
Qed.

Lemma fold_place_spaced (l : list nat) st :
  spaced st ->
  ∃ st', fold_left (fun o i => bind o (fun st => place_cell rng width height assets st i)
                                   (fun s => s)) l (Done st) = Done st' /\
    spaced st' /\ length st'.1.1 = (length st.1.1 + length l)%nat.
Proof.
  revert st. induction l as [|i l IH]; intros st Hst.
  - exists st. simpl. split; [done|split; [done|lia]].
  - destruct (place_cell_spaced st i Hst) as (st1 & E1 & Hs1 & Hl1).
    simpl. rewrite E1. destruct (IH st1 Hs1) as (st2 & E2 & Hs2 & Hl2).
    exists st2. split; [exact E2|split; [exact Hs2|]]. rewrite Hl2, Hl1. simpl. lia.
Qed.
End Scatter.
End ScatterFacts.

Module ScatterTheorems.
Import Swarm ScatterFacts.
Local Open Scope R_scope.

(** Claim C7.  For every stream of [Math.random()] values, every canvas size
    and every asset list, the placement loop of [sperm2.js] returns
    normally with 800 cells, recording each cell's final [attempts]; any two
    distinct cells whose [attempts] stayed below 30 (both accepted by
    [break], without exhausting the budget) are at distance at least
    [minSpacing] = 50.  Cells whose loop ran out of attempts are pushed with
    the last candidate and carry no such bound. *)
Theorem scatter_spacing {A} (rng : nat -> R) (width height : R) (assets : list A) :
  ∃ cells trace k,
    scatter_setup rng width height assets = Done (cells, trace, k) /\
    length cells = desiredAssetCount /\ length trace = desiredAssetCount /\
    ∀ a b ca cb ta tb, a <> b ->
      cells !! a = Some ca -> cells !! b = Some cb ->
      trace !! a = Some ta -> trace !! b = Some tb ->
      (ta < 30)%nat -> (tb < 30)%nat ->
      minSpacing <= dist (x ca) (y ca) (x cb) (y cb).
Proof.
  assert (H0 : spaced (A := A) ([], [], 0%nat)).
  { split; [done|]. intros a b ca cb tb _ Ha. by rewrite lookup_nil in Ha. }
  destruct (fold_place_spaced rng width height assets (seq 0 desiredAssetCount) _ H0)
    as ([[cells trace] k] & E & [Hlen Hsp] & Hl).
  rewrite length_seq in Hl. simpl in Hl.
  exists cells, trace, k. split; [exact E|]. split; [exact Hl|]. split; [lia|].
  intros a b ca cb ta tb Hab Ha Hb Hta Htb Hta30 Htb30.
  destruct (proj1 (Nat.lt_gt_cases a b) Hab) as [Hlt|Hgt].
  - exact (Hsp a b ca cb tb Hlt Ha Hb Htb Htb30).
  - rewrite dist_sym. exact (Hsp b a cb ca ta Hgt Hb Ha Hta Hta30).
Qed.
End ScatterTheorems.

Module MeshSetupFacts.
Import MeshPass MeshSetup MeshConvergence.
Local Open Scope R_scope.

Lemma fold_push {B C} (f : C -> B) (l : list C) (acc : list B) :
  fold_left (fun a i => a ++ [f i]) l acc = acc ++ (f <$> l).
Proof.
  revert acc. induction l as [|i l IH]; intros acc; simpl; [by rewrite app_nil_r|].
  rewrite IH, <- app_assoc. reflexivity.
Qed.

Lemma mesh_grid_fmap (x0 x1 y0 y1 : R) :
  mesh_grid x0 x1 y0 y1 =
  (fun yy => (fun xx => grid_point x0 x1 y0 y1 yy xx) <$> seq 0 cols) <$> seq 0 rows_.
Proof.
  unfold mesh_grid.
  rewrite (fold_push (fun yy => fold_left (fun row xx => row ++ [grid_point x0 x1 y0 y1 yy xx])
                                  (seq 0 cols) [])).
  rewrite app_nil_l. apply list_fmap_ext. intros i yy _. rewrite fold_push. reflexivity.
Qed.

Lemma mesh_grid_lookup (x0 x1 y0 y1 : R) (r c : nat) (p : GridPoint.t) :
  mesh_grid x0 x1 y0 y1 !! r ≫= (fun row => row !! c) = Some p <->
  (r < rows_)%nat /\ (c < cols)%nat /\ p = grid_point x0 x1 y0 y1 r c.
Proof.
  rewrite mesh_grid_fmap, (list_lookup_fmap _ (seq 0 rows_) r).
  destruct (seq 0 rows_ !! r) as [yy|] eqn:Er; cbn -[seq].
  - apply lookup_seq in Er as [-> Hr]. rewrite (list_lookup_fmap _ (seq 0 cols) c).
    destruct (seq 0 cols !! c) as [xx|] eqn:Ec; cbn -[seq].
    + apply lookup_seq in Ec as [-> Hc]. split; [intros [= <-]; split; [lia|split; [lia|done]]|intros (_ & _ & ->); done].
    + apply lookup_ge_None_1 in Ec. rewrite length_seq in Ec. split; [discriminate|lia].
  - apply lookup_ge_None_1 in Er. rewrite length_seq in Er. split; [discriminate|lia].
Qed.

Lemma mesh_grid_rect (x0 x1 y0 y1 : R) :
  length (mesh_grid x0 x1 y0 y1) = rows_ /\
  Forall (fun row => length row = cols) (mesh_grid x0 x1 y0 y1).
Proof.
  rewrite mesh_grid_fmap, length_fmap, length_seq. split; [done|].
  apply Forall_fmap, Forall_forall. intros yy _. cbn -[seq]. by rewrite length_fmap, length_seq.
Qed.

Lemma grid_point_at_rest (x0 x1 y0 y1 : R) (r c : nat) : at_rest (grid_point x0 x1 y0 y1 r c).
Proof. unfold at_rest, grid_point. simpl. auto. Qed.

Lemma mesh_grid_at_rest (x0 x1 y0 y1 : R) : Forall (Forall at_rest) (mesh_grid x0 x1 y0 y1).
Proof.
  rewrite mesh_grid_fmap. apply Forall_fmap, Forall_forall. intros yy _. cbn -[seq].
  apply Forall_fmap, Forall_forall. intros xx _. apply grid_point_at_rest.
Qed.

Lemma map_range_between (v n lo hi : R) :
  0 <= v <= n -> 0 < n -> lo <= hi -> lo <= map_range v 0 n lo hi <= hi.
Proof.
  intros Hv Hn Hlh. unfold map_range. rewrite !Rminus_0_r.
  assert (Hq : v / n * n = v) by (field; lra).
  assert (0 <= v / n <= 1) by (split; nra).
  nra.
Qed.


Lemma fold_pull_nonpos (p : GridPoint.t) (nodes : list Node.t) (acc : R * R) :
  Forall (fun node => Node.force node <= 0) nodes -> fold_left (Mesh.pull p) nodes acc = acc.
Proof.
  revert acc. induction nodes as [|node nodes IH]; intros [fx fy] Hz; cbn [fold_left]; [done|].
  apply Forall_cons in Hz as [Hn Hz].
  unfold Mesh.pull at 2. unfold ltb at 1.
  destruct (Rlt_dec 0 (Node.force node)); [lra|]. simpl. apply IH, Hz.
Qed.

Lemma cell_pull_nonpos {B} (c : Swarm.cell B) (nodes : list Node.t) (acc : R * R) :
  Forall (fun node => Node.force node <= 0) nodes ->
  fold_left (ScatterSwarm.cell_pull c) nodes acc = acc.
Proof.
  revert acc. induction nodes as [|node nodes IH]; intros [fx fy] Hz; cbn [fold_left]; [done|].
  apply Forall_cons in Hz as [Hn Hz].
  unfold ScatterSwarm.cell_pull at 2. unfold ltb at 1.
  destruct (Rlt_dec 0 (Node.force node)); [lra|]. simpl. apply IH, Hz.
Qed.

Lemma anyNodeActive_false (nodes : list Node.t) :
  anyNodeActive nodes = false <-> Forall (fun node => Node.force node <= 0) nodes.
Proof.
  unfold anyNodeActive. rewrite Forall_forall. split.
  - intros H node Hin. destruct (Rle_dec (Node.force node) 0) as [|Hgt]; [done|].
    exfalso. assert (E : existsb (fun node => ltb 0 (Node.force node)) nodes = true).
    { apply existsb_exists. exists node. split; [by apply list_elem_of_In|].
      unfold ltb. destruct (Rlt_dec 0 (Node.force node)); [done|lra]. }
    congruence.
  - intros H. destruct (existsb _ nodes) eqn:E; [|done].
    apply existsb_exists in E as [node [Hin Hlt]].
    apply list_elem_of_In, H in Hin. unfold ltb in Hlt.
    destruct (Rlt_dec 0 (Node.force node)); [lra|discriminate].
Qed.

Lemma step_point_rest (k_rest : R) (p : GridPoint.t) :
  at_rest p -> Mesh.step_point k_rest [] p = p.
Proof.
  destruct p as [px py pvx pvy prx pry]. unfold at_rest. simpl. intros (-> & -> & -> & ->).
  unfold Mesh.step_point. simpl. f_equal; ring.
Qed.

Lemma fmap_fixed {B} (f : B -> B) (l : list B) (P : B -> Prop) :
  Forall P l -> (∀ b, P b -> f b = b) -> f <$> l = l.
Proof.
  intros Hl Hf. induction Hl as [|b l Hb Hl IH]; [done|].
  change (f <$> b :: l) with (f b :: (f <$> l)). by rewrite Hf, IH.
Qed.

Lemma pointwise_rest (k_rest : R) (nodes : list Node.t) (m : mesh) :
  anyNodeActive nodes = false -> Forall (Forall at_rest) m -> pointwise k_rest nodes m = m.
Proof.
  intros Hn Hm. apply anyNodeActive_false in Hn. unfold pointwise.
  apply (fmap_fixed _ _ _ Hm). intros row Hrow. apply (fmap_fixed _ _ _ Hrow).
  intros p Hp. unfold Mesh.step_point. rewrite fold_pull_nonpos by done.
  fold (Mesh.step_point k_rest [] p). by apply step_point_rest.
Qed.
End MeshSetupFacts.

Module MeshSetupTheorems.
Import MeshPass MeshSetup MeshConvergence MeshSetupFacts.
Local Open Scope R_scope.



(** While no node is active, a mesh (14 x 20) whose points are all at rest
    stays exactly as it is, frame after frame: the mesh pass never throws and
    changes nothing.  The mesh built by [setup] is such a mesh. *)
Theorem rest_mesh_stays (k_rest : R) (nodes : list Node.t) (m : mesh) (n : nat) :
  anyNodeActive nodes = false ->
  length m = rows_ -> Forall (fun row => length row = cols) m ->
  Forall (Forall at_rest) m ->
  steps k_rest nodes n m = Done m.
Proof.
  intros Hn Hlen Hrect Hrest. destruct (steps_rect k_rest nodes n m Hlen Hrect) as [Hs _].
  rewrite Hs. clear Hs. f_equal. induction n as [|n IH]; [done|].
  rewrite Nat.iter_succ, IH. by apply pointwise_rest.
Qed.

Lemma rest_mesh_stays_witness :
  (anyNodeActive [Node.mk 0 0 0] = false /\ length mesh0 = rows_ /\
   Forall (fun row => length row = cols) mesh0 /\ Forall (Forall at_rest) mesh0) /\
  steps 0.04 [Node.mk 0 0 0] 3 mesh0 = Done mesh0.
Proof.
  assert (Hn : anyNodeActive [Node.mk 0 0 0] = false).
  { unfold anyNodeActive, ltb. simpl. destruct (Rlt_dec 0 0); [lra|reflexivity]. }
  destruct (mesh_grid_rect (-400) 400 (-250) 250) as [Hl Hr].
  pose proof (mesh_grid_at_rest (-400) 400 (-250) 250) as Ha.
  split; [split; [exact Hn|split; [exact Hl|split; [exact Hr|exact Ha]]]|].
  exact (rest_mesh_stays 0.04 [Node.mk 0 0 0] mesh0 3 Hn Hl Hr Ha).
Defined.

(** [anyNodeActive(nodes)] is false exactly when no node has a positive
    force, and then the node loops add no force: the mesh step and the
    sperm2.js cell step behave as with no node at all. *)
Theorem anyNodeActive_no_pull (nodes : list Node.t) :
  (anyNodeActive nodes = false <-> Forall (fun node => Node.force node <= 0) nodes) /\
  (anyNodeActive nodes = false ->
     (∀ k_rest p, Mesh.step_point k_rest nodes p = Mesh.step_point k_rest [] p) /\
     (∀ B (c : Swarm.cell B), ScatterSwarm.scatter_step nodes c = ScatterSwarm.scatter_step [] c)).
Proof.
  split; [apply anyNodeActive_false|]. intros Hn. apply anyNodeActive_false in Hn. split.
  - intros k_rest p. unfold Mesh.step_point. by rewrite fold_pull_nonpos.
  - intros B c. unfold ScatterSwarm.scatter_step. by rewrite cell_pull_nonpos.
Qed.
End MeshSetupTheorems.

Module KeyFacts.
Import JsString JsStringFacts Layout LayoutFacts KeyEvents.
Local Open Scope R_scope.


Definition key_target (sym : jstr) : option nat := own_lookup (to_lower sym) keyToNode.











Lemma to_lower_key_target (sym : jstr) : key_target (to_lower sym) = key_target sym.
Proof. unfold key_target. by rewrite to_lower_idem. Qed.


Lemma nodes0_explicit : nodes0 =
  ((fun c => Node.mk (map_range (INR c) 0 (INR 9) (-400) 400) (map_range (INR 0) 0 (INR 2) (-250) 250) 0)
     <$> seq 0 10) ++
  ((fun c => Node.mk (map_range (INR c) 0 (INR 8) (-400) 400) (map_range (INR 1) 0 (INR 2) (-250) 250) 0)
     <$> seq 0 9) ++
  ((fun c => Node.mk (map_range (INR c) 0 (INR 6) (-400) 400) (map_range (INR 2) 0 (INR 2) (-250) 250) 0)
     <$> seq 0 7).
Proof. reflexivity. Qed.

Lemma row_nodes_in_box (r n : nat) :
  (r <= 2)%nat -> (0 < n)%nat ->
  Forall (fun node => Node.force node = 0 /\ -400 <= Node.x node <= 400 /\ -250 <= Node.y node <= 250)
    ((fun c => Node.mk (map_range (INR c) 0 (INR n) (-400) 400) (map_range (INR r) 0 (INR 2) (-250) 250) 0)
       <$> seq 0 (S n)).
Proof.
  intros Hr Hn. apply Forall_fmap, Forall_forall. intros c Hc.
  apply elem_of_seq in Hc. cbn -[INR map_range]. split; [done|].
  split; apply MeshSetupFacts.map_range_between; try lra.
  - split; [apply pos_INR|apply le_INR; lia].
  - apply lt_0_INR. lia.
  - split; [apply pos_INR|]. replace 2 with (INR 2) by (simpl; lra). apply le_INR. lia.
  - simpl. lra.
Qed.

End KeyFacts.

Module KeyTheorems.
Import JsString Layout LayoutFacts KeyEvents KeyFacts.
Local Open Scope R_scope.





(** [setup] creates 26 nodes, all with force 0 and all inside the box
    [[-400, 400] x [-250, 250]] sampled by the Voronoi pass; [keyToNode] maps
    26 distinct one-letter lower-case keys to the indices 0..25, one each,
    so every key reaches a node of its own. *)
Theorem layout_nodes :
  length nodes0 = 26%nat /\
  Forall (fun node => Node.force node = 0 /\ -400 <= Node.x node <= 400 /\ -250 <= Node.y node <= 250)
    nodes0 /\
  snd <$> keyToNode = seq 0 26 /\ NoDup (fst <$> keyToNode) /\
  Forall (fun kv => length kv.1 = 1%nat /\ to_lower kv.1 = kv.1) keyToNode.
Proof.
  split; [exact nodes0_length|]. split.
  - rewrite nodes0_explicit. repeat (apply Forall_app; split);
      apply row_nodes_in_box; lia.
  - rewrite keyToNode_value. split; [reflexivity|]. split.
    + apply (bool_decide_unpack (NoDup _)). vm_compute. exact I.
    + repeat constructor.
Qed.
End KeyTheorems.

Module AnchorFacts.
Import Swarm MeshPass MeshSetup AnchorSwarm MeshPassFacts MeshSetupFacts SwarmFacts.
Local Open Scope R_scope.

Lemma random2_between (u lo hi : R) :
  0 <= u < 1 -> lo <= hi -> lo <= random2 u lo hi <= hi.
Proof. intros Hu Hlh. unfold random2, ltb. destruct (Rlt_dec hi lo); [lra|]. nra. Qed.

Lemma random1_between (u n : R) : 0 <= u < 1 -> 0 <= n -> 0 <= random1 u n <= n.
Proof. intros Hu Hn. unfold random1. nra. Qed.

Lemma div_mod_cols (yy xx : nat) :
  (xx < cols)%nat -> ((yy * cols + xx) / cols = yy /\ (yy * cols + xx) mod cols = xx)%nat.
Proof.
  intros Hx. unfold cols in *. split.
  - symmetry. apply (Nat.div_unique _ _ _ xx); lia.
  - symmetry. apply (Nat.mod_unique _ _ yy); lia.
Qed.

Section SetupInv.
Context {A : Type}.
Variable rng : nat -> R.
Variable assets : list A.
Variable m : mesh.
Hypothesis Hm : ∀ yy xx, (yy < rows_)%nat -> (xx < cols)%nat ->
  ∃ p, m !! yy ≫= (fun row => row !! xx) = Some p.

(** The cell pushed for slot [j] of the row-major scan, on the point [p],
    with the draws starting at [kk]. *)
Definition built_cell (p : GridPoint.t) (kk j : nat) : cell (option A) :=
  mkCell
    (GridPoint.x p + random2 (rng kk) (- jitter) jitter)
    (GridPoint.y p + random2 (rng (kk + 1)) (- jitter) jitter)
    (random2 (rng (kk + 2)) (-1) 1) (random2 (rng (kk + 3)) (-1) 1)
    (assets !! j) (Some (j mod cols, j / cols)%nat)
    (random2 (rng (kk + 4)) 0.6 1.2)
    (random1 (rng (kk + 5)) (2 * PI))
    (random2 (rng (kk + 6)) (-0.02) 0.02).

(** After [t] slots of the scan: [idx] cells, one per slot while assets last. *)
Definition anchor_inv (t : nat) (st : @anchor_state A) : Prop :=
  let '(cells, idx, k) := st in
  idx = Nat.min t (length assets) /\ length cells = idx /\
  ∀ j c, cells !! j = Some c ->
    ∃ p kk, m !! (j / cols)%nat ≫= (fun row => row !! (j mod cols)%nat) = Some p
      /\ c = built_cell p kk j.

Lemma visit_step (yy xx : nat) (st : @anchor_state A) :
  (yy < rows_)%nat -> (xx < cols)%nat -> anchor_inv (yy * cols + xx) st ->
  ∃ st', anchor_visit rng assets m yy st xx = Done st' /\ anchor_inv (S (yy * cols + xx)) st'.
Proof.
  intros Hy Hx. destruct st as [[cells idx] k]. intros (Hidx & Hlen & Hc).
  destruct (div_mod_cols yy xx Hx) as [Hd Hmd].
  unfold anchor_visit. destruct (Nat.ltb_spec idx (length assets)) as [Hlt|Hge].
  - destruct (Hm yy xx Hy Hx) as [p Hp]. rewrite Hp.
    eexists; split; [reflexivity|].
    assert (Ht : idx = (yy * cols + xx)%nat) by lia.
    split; [lia|]. split; [rewrite length_app; simpl; lia|].
    intros j c Hj. apply lookup_app_Some in Hj as [Hj|[Hj1 Hj]].
    + exact (Hc j c Hj).
    + apply list_lookup_singleton_Some in Hj as [Hj0 <-].
      assert (Hjt : j = (yy * cols + xx)%nat) by lia. subst j.
      exists p, k. rewrite Hd, Hmd. split; [exact Hp|].
      unfold built_cell. rewrite Hd, Hmd, Ht. reflexivity.
  - eexists; split; [reflexivity|]. split; [lia|]. split; [done|]. exact Hc.
Qed.

Lemma row_visits (yy n a : nat) (st : @anchor_state A) :
  (yy < rows_)%nat -> (a + n <= cols)%nat -> anchor_inv (yy * cols + a) st ->
  ∃ st', fold_left (fun o' xx => bind o' (fun st => anchor_visit rng assets m yy st xx) (fun s => s))
           (seq a n) (Done st) = Done st'
    /\ anchor_inv (yy * cols + a + n) st'.
Proof.
  revert a st. induction n as [|n IH]; intros a st Hy Ha Hi.
  - exists st. rewrite Nat.add_0_r. done.
  - cbn [seq fold_left]. cbn [bind].
    destruct (visit_step yy a st Hy ltac:(lia) Hi) as [st1 [E1 H1]]. rewrite E1.
    rewrite <- Nat.add_succ_r in H1.
    destruct (IH (S a) st1 Hy ltac:(lia) H1) as [st' [E' H']].
    exists st'. rewrite E'. split; [done|].
    replace (yy * cols + a + S n)%nat with (yy * cols + S a + n)%nat by lia. exact H'.
Qed.

Lemma rows_visits (n a : nat) (st : @anchor_state A) :
  (a + n <= rows_)%nat -> anchor_inv (a * cols) st ->
  ∃ st', fold_left (fun o yy =>
      fold_left (fun o' xx => bind o' (fun st => anchor_visit rng assets m yy st xx) (fun s => s))
        (seq 0 cols) o) (seq a n) (Done st) = Done st'
    /\ anchor_inv ((a + n) * cols) st'.
Proof.
  revert a st. induction n as [|n IH]; intros a st Ha Hi.
  - exists st. rewrite Nat.add_0_r. done.
  - cbn [seq fold_left].
    rewrite <- (Nat.add_0_r (a * cols)) in Hi.
    destruct (row_visits a cols 0 st ltac:(lia) ltac:(lia) Hi) as [st1 [E1 H1]]. rewrite E1.
    replace (a * cols + 0 + cols)%nat with (S a * cols)%nat in H1 by lia.
    destruct (IH (S a) st1 ltac:(lia) H1) as [st' [E' H']].
    exists st'. rewrite E'. split; [done|].
    replace ((a + S n) * cols)%nat with ((S a + n) * cols)%nat by lia. exact H'.
Qed.

Lemma setup_inv : ∃ st', anchor_setup rng assets m = Done st' /\ anchor_inv (rows_ * cols) st'.
Proof.
  unfold anchor_setup. apply (rows_visits rows_ 0); [lia|]. simpl. split; [lia|]. split; [done|].
  intros j c Hj. rewrite lookup_nil in Hj. discriminate.
Qed.
End SetupInv.

Lemma canvas_mesh_in_range (width height : R) (yy xx : nat) :
  (yy < rows_)%nat -> (xx < cols)%nat ->
  ∃ p, canvas_mesh width height !! yy ≫= (fun row => row !! xx) = Some p.
Proof.
  intros Hy Hx. unfold canvas_mesh. eexists. apply mesh_grid_lookup. eauto.
Qed.

Lemma rect_lookup (m : mesh) (yy xx : nat) :
  length m = rows_ -> Forall (fun row => length row = cols) m ->
  (yy < rows_)%nat -> (xx < cols)%nat -> is_Some (m !! yy ≫= (fun row => row !! xx)).
Proof.
  intros Hl Hr Hy Hx. destruct (lookup_lt_is_Some_2 m yy) as [row Hrow]; [lia|].
  rewrite Hrow. simpl. apply lookup_lt_is_Some_2.
  rewrite Forall_lookup in Hr. rewrite (Hr _ _ Hrow). exact Hx.
Qed.

Section Decay.
Context {B : Type}.
Implicit Types (cells : list (cell B)) (c : cell B).

(** The energy of one axis of a cell pulled towards its anchor: the spring
    factor is 0.01, the damping 0.96. *)
Definition cell_beta : R := (1 - 0.96 - 0.96 * 0.01) / (2 * 0.96).
Definition cell_axis (e v : R) : R := 0.01 * e * e + 2 * cell_beta * e * v + v * v.
Definition cell_gap : R := 0.01 - cell_beta * cell_beta.

Definition cell_energy (m : mesh) c : R :=
  match anchor_point m c with
  | Some p => cell_axis (x c - GridPoint.x p) (vx c) + cell_axis (y c - GridPoint.y p) (vy c)
  | None => 0
  end.

Lemma cell_gap_pos : 0 < cell_gap.
Proof. unfold cell_gap, cell_beta. decimals. lra. Qed.

Lemma cell_axis_lower (e v : R) : cell_gap * (e * e) <= cell_axis e v.
Proof.
  unfold cell_axis, cell_gap.
  replace (0.01 * e * e + 2 * cell_beta * e * v + v * v)
    with ((0.01 - cell_beta * cell_beta) * (e * e) + (v + cell_beta * e) * (v + cell_beta * e)) by ring.
  pose proof (Rle_0_sqr (v + cell_beta * e)) as H. unfold Rsqr in H. lra.
Qed.

Lemma cell_energy_nonneg (m : mesh) c : 0 <= cell_energy m c.
Proof.
  unfold cell_energy. destruct (anchor_point m c) as [p|]; [|lra].
  pose proof cell_gap_pos.
  pose proof (cell_axis_lower (x c - GridPoint.x p) (vx c)).
  pose proof (cell_axis_lower (y c - GridPoint.y p) (vy c)).
  pose proof (Rle_0_sqr (x c - GridPoint.x p)). pose proof (Rle_0_sqr (y c - GridPoint.y p)).
  unfold Rsqr in *. nra.
Qed.

Lemma anchor_dist_energy (m : mesh) c :
  is_Some (anchor_point m c) ->
  ∃ d, anchor_dist m c = Some d /\ 0 <= d /\ cell_gap * (d * d) <= cell_energy m c.
Proof.
  unfold anchor_dist, cell_energy, anchor_point.
  destruct (meshIdx c) as [[mx my]|]; [|intros [? ?]; discriminate].
  intros [p Hp]. rewrite Hp. eexists; split; [reflexivity|].
  split; [apply sqrt_pos|]. unfold dist. rewrite sqrt_sqrt by (apply Rplus_le_le_0_compat; apply Rle_0_sqr).
  pose proof (cell_axis_lower (x c - GridPoint.x p) (vx c)).
  pose proof (cell_axis_lower (y c - GridPoint.y p) (vy c)). nra.
Qed.

Lemma anchor_step_energy (m : mesh) c p :
  anchor_point m c = Some p ->
  ∃ c', anchor_step m c = Done c' /\ anchor_point m c' = Some p
    /\ cell_energy m c' = 0.96 * cell_energy m c.
Proof.
  unfold cell_energy. intros Hp. rewrite Hp. revert Hp. unfold anchor_point, anchor_step.
  destruct (meshIdx c) as [[mx my]|] eqn:Ec; [|discriminate]. intros Hp. rewrite Hp.
  eexists; split; [reflexivity|]. cbn [meshIdx x y vx vy]. rewrite ?Ec, Hp.
  split; [done|]. unfold cell_axis, cell_beta. decimals. field.
Qed.

Lemma fields_energy (m : mesh) c c0 :
  other_fields c = other_fields c0 ->
  anchor_point m c = anchor_point m c0 /\ cell_energy m c = cell_energy m c0.
Proof.
  destruct c, c0. unfold other_fields. cbn. intros [= -> -> -> -> -> -> -> ->].
  split; reflexivity.
Qed.

Lemma same_but_img_elem cells cs c :
  same_but_img cells cs -> c ∈ cs -> ∃ c0, c0 ∈ cells /\ other_fields c = other_fields c0.
Proof.
  intros [_ Ho] Hc. assert (Hin : other_fields c ∈ other_fields <$> cs)
    by (apply list_elem_of_fmap; eauto).
  rewrite Ho in Hin. apply list_elem_of_fmap in Hin as [c0 [Hc0 Hin]]. eauto.
Qed.

Lemma anchor_cells_decay (m : mesh) cells :
  Forall (fun c => is_Some (anchor_point m c)) cells ->
  ∃ cells', anchor_cells m cells = Done cells' /\ length cells' = length cells /\
    ∀ c', c' ∈ cells' -> ∃ c, c ∈ cells /\ is_Some (anchor_point m c')
      /\ cell_energy m c' = 0.96 * cell_energy m c.
Proof.
  induction cells as [|c cs IH]; intros Hf.
  - exists []. split; [done|]. split; [done|]. intros c' Hc'. by apply not_elem_of_nil in Hc'.
  - apply Forall_cons in Hf as [[p Hp] Hf].
    destruct (anchor_step_energy m c p Hp) as (c' & E1 & Hp' & He).
    destruct (IH Hf) as (cs' & E2 & Hl & Hcs).
    exists (c' :: cs'). cbn [anchor_cells]. rewrite E1, E2. split; [done|].
    split; [simpl; lia|]. intros d Hd. apply elem_of_cons in Hd as [->|Hd].
    + exists c. split; [apply elem_of_cons; auto|]. split; [eauto|exact He].
    + destruct (Hcs d Hd) as (c0 & Hc0 & Ha & Hd0). exists c0.
      split; [apply elem_of_cons; auto|]. auto.
Qed.

(** The draws of a reshuffle are values of [Math.random()]. *)
Definition draws_ok (sh : option (nat -> R * R)) : Prop :=
  ∀ d, sh = Some d -> ∀ n, 0 <= (d n).1 < 1 /\ 0 <= (d n).2 < 1.

Lemma reshuffle_step (sh : option (nat -> R * R)) cells :
  draws_ok sh -> cells <> [] ->
  ∃ cs, (match sh with None => Done cells | Some d => reshuffle d cells end) = Done cs
    /\ same_but_img cells cs.
Proof.
  intros Hd Hne. destruct sh as [d|].
  - pose proof (SwarmTheorems.swaps_nonempty_done d cells swapsPerInterval 0 (Hd d eq_refl) Hne) as Hdone.
    pose proof (swaps_same swapsPerInterval d 0 cells) as Hs. unfold reshuffle.
    destruct (swaps swapsPerInterval d 0 cells) as [cs|cs]; [|discriminate].
    exists cs. split; [done|exact Hs].
  - exists cells. split; [done|apply same_but_img_refl].
Qed.

Section Frames.
Variable nodes : list Node.t.
Variable m : mesh.
Hypothesis Hn : anyNodeActive nodes = false.
Hypothesis Hlen : length m = rows_.
Hypothesis Hrect : Forall (fun row => length row = cols) m.
Hypothesis Hrest : Forall (Forall at_rest) m.

Lemma anchor_frame_decay (sh : option (nat -> R * R)) cells (bound : R) :
  draws_ok sh -> cells <> [] ->
  (∀ c, c ∈ cells -> is_Some (anchor_point m c) /\ cell_energy m c <= bound) ->
  ∃ cells', anchor_frame nodes sh (m, cells) = Done (m, cells')
    /\ length cells' = length cells
    /\ ∀ c', c' ∈ cells' -> is_Some (anchor_point m c') /\ cell_energy m c' <= 0.96 * bound.
Proof.
  intros Hd Hne Hc.
  destruct (reshuffle_step sh cells Hd Hne) as (cs & Ecs & Hsame).
  unfold anchor_frame. rewrite Ecs.
  rewrite (mesh_step_pointwise 0.04 nodes m Hlen Hrect), (pointwise_rest 0.04 nodes m Hn Hrest).
  assert (Hcs : ∀ c, c ∈ cs -> is_Some (anchor_point m c) /\ cell_energy m c <= bound).
  { intros c Hin. destruct (same_but_img_elem _ _ _ Hsame Hin) as (c0 & Hc0 & Hf).
    destruct (fields_energy m c c0 Hf) as [-> ->]. auto. }
  destruct (anchor_cells_decay m cs) as (cells' & E & Hl & Hcells').
  { apply Forall_forall. intros c Hin. apply Hcs. exact Hin. }
  rewrite E. exists cells'. split; [done|].
  split; [rewrite Hl; apply same_but_img_length, Hsame|].
  intros c' Hin. destruct (Hcells' c' Hin) as (c & Hc0 & Ha & He).
  split; [exact Ha|]. rewrite He. destruct (Hcs c Hc0) as [_ Hb]. lra.
Qed.

Lemma anchor_frames_decay (shuffles : list (option (nat -> R * R))) cells (bound : R) :
  Forall draws_ok shuffles -> cells <> [] ->
  (∀ c, c ∈ cells -> is_Some (anchor_point m c) /\ cell_energy m c <= bound) ->
  ∃ cells', anchor_frames nodes shuffles (m, cells) = Done (m, cells')
    /\ length cells' = length cells
    /\ ∀ c', c' ∈ cells' -> is_Some (anchor_point m c')
         /\ cell_energy m c' <= 0.96 ^ length shuffles * bound.
Proof.
  revert cells bound. induction shuffles as [|sh rest IH]; intros cells bound Hs Hne Hc.
  - exists cells. split; [done|]. split; [done|]. intros c Hin. simpl. rewrite Rmult_1_l. auto.
  - apply Forall_cons in Hs as [Hsh Hs].
    destruct (anchor_frame_decay sh cells bound Hsh Hne Hc) as (cells1 & E1 & Hl1 & Hc1).
    assert (Hne1 : cells1 <> []) by (intros ->; apply Hne, nil_length_inv; simpl in Hl1; lia).
    destruct (IH cells1 (0.96 * bound) Hs Hne1 Hc1) as (cells' & E' & Hl' & Hc').
    exists cells'. cbn [anchor_frames]. rewrite E1. cbn [bind]. rewrite E'.
    split; [done|]. split; [lia|]. intros c' Hin. destruct (Hc' c' Hin) as [Ha He].
    split; [exact Ha|]. cbn [length pow]. lra.
Qed.
End Frames.

(** The largest initial energy. *)
Definition energy_bound (m : mesh) cells : R :=
  foldr (fun c acc => Rmax (cell_energy m c) acc) 0 cells.

Lemma energy_bound_ge (m : mesh) cells c :
  c ∈ cells -> cell_energy m c <= energy_bound m cells.
Proof.
  induction cells as [|c0 cs IH]; intros Hin; [by apply not_elem_of_nil in Hin|].
  simpl. apply elem_of_cons in Hin as [->|Hin]; [apply Rmax_l|].
  eapply Rle_trans; [apply IH, Hin|apply Rmax_r].
Qed.

Lemma energy_bound_nonneg (m : mesh) cells : 0 <= energy_bound m cells.
Proof.
  induction cells as [|c cs IH]; simpl; [lra|]. eapply Rle_trans; [exact IH|apply Rmax_r].
Qed.
End Decay.
End AnchorFacts.

Module AnchorTheorems.
Import Swarm MeshPass MeshSetup AnchorSwarm MeshSetupFacts AnchorFacts.
Local Open Scope R_scope.

(** Part 3 of [setup] in sperm.js, on the mesh built in part 1 for any
    canvas: it never throws, creates one cell per asset up to the 14 x 20
    mesh slots ([numSpermCells] plays no part), gives cell [j] the asset
    [assets[j]] (never [undefined]) and anchors it at column [j mod 20] of
    row [j / 20], a slot that exists in the mesh. *)
Theorem anchor_setup_cells {A} (rng : nat -> R) (assets : list A) (width height : R) :
  ∃ cells idx k, anchor_setup rng assets (canvas_mesh width height) = Done (cells, idx, k)
    /\ length cells = Nat.min (length assets) (rows_ * cols) /\ idx = length cells
    /\ ∀ j c, cells !! j = Some c ->
         img c = assets !! j /\ is_Some (assets !! j)
         /\ meshIdx c = Some (j mod cols, j / cols)%nat /\ (j / cols < rows_)%nat.
Proof.
  destruct (setup_inv rng assets (canvas_mesh width height) (canvas_mesh_in_range width height))
    as [[[cells idx] k] [E (Hidx & Hlen & Hc)]].
  exists cells, idx, k. split; [exact E|]. split; [lia|]. split; [lia|].
  intros j c Hj. pose proof (lookup_lt_Some _ _ _ Hj) as Hjl.
  destruct (Hc j c Hj) as (p & kk & _ & ->). unfold built_cell. cbn [img meshIdx].
  split; [done|]. split; [apply lookup_lt_is_Some_2; lia|]. split; [done|].
  apply Nat.Div0.div_lt_upper_bound; unfold cols, rows_ in *; lia.
Qed.

(** With every [random()] draw in [[0, 1)], each cell created by [setup]
    in sperm.js starts within 30 units (on each axis) of the mesh point it
    is anchored to, with [vx] and [vy] in [[-1, 1]], [scale] in [[0.6, 1.2]],
    [angle] in [[0, 2 PI]] and [angleSpeed] in [[-0.02, 0.02]]. *)
Theorem anchor_setup_near {A} (rng : nat -> R) (assets : list A) (width height : R) :
  (∀ n, 0 <= rng n < 1) ->
  ∃ cells idx k, anchor_setup rng assets (canvas_mesh width height) = Done (cells, idx, k)
    /\ ∀ c, c ∈ cells -> ∃ p, anchor_point (canvas_mesh width height) c = Some p
         /\ Rabs (x c - GridPoint.x p) <= 30 /\ Rabs (y c - GridPoint.y p) <= 30
         /\ -1 <= vx c <= 1 /\ -1 <= vy c <= 1 /\ 0.6 <= scale c <= 1.2
         /\ 0 <= angle c <= 2 * PI /\ -0.02 <= angleSpeed c <= 0.02.
Proof.
  intros Hr.
  destruct (setup_inv rng assets (canvas_mesh width height) (canvas_mesh_in_range width height))
    as [[[cells idx] k] [E (_ & _ & Hc)]].
  exists cells, idx, k. split; [exact E|]. intros c Hin.
  apply list_elem_of_lookup_1 in Hin as [j Hj].
  destruct (Hc j c Hj) as (p & kk & Hp & ->). exists p.
  unfold anchor_point, built_cell. cbn [meshIdx x y vx vy scale angle angleSpeed].
  split; [exact Hp|].
  assert (Hj0 : - jitter <= jitter) by (unfold jitter; lra).
  pose proof (random2_between _ _ _ (Hr kk) Hj0).
  pose proof (random2_between _ _ _ (Hr (kk + 1)%nat) Hj0).
  pose proof (random2_between (rng (kk + 2)%nat) (-1) 1 (Hr _) ltac:(lra)).
  pose proof (random2_between (rng (kk + 3)%nat) (-1) 1 (Hr _) ltac:(lra)).
  pose proof (random2_between (rng (kk + 4)%nat) 0.6 1.2 (Hr _) ltac:(lra)).
  pose proof PI_RGT_0.
  pose proof (random1_between (rng (kk + 5)%nat) (2 * PI) (Hr _) ltac:(lra)).
  pose proof (random2_between (rng (kk + 6)%nat) (-0.02) 0.02 (Hr _) ltac:(lra)).
  unfold jitter in *.
  split; [apply Rabs_le; lra|]. split; [apply Rabs_le; lra|]. lra.
Qed.

Lemma anchor_setup_near_witness :
  (∀ n : nat, 0 <= (fun _ : nat => 0) n < 1) /\
  ∃ cells idx k, anchor_setup (fun _ : nat => 0) [tt] (canvas_mesh 800 600) = Done (cells, idx, k).
Proof.
  assert (Hr : ∀ n : nat, 0 <= (fun _ : nat => 0) n < 1) by (intros; lra).
  split; [exact Hr|].
  destruct (anchor_setup_near (fun _ : nat => 0) [tt] 800 600 Hr) as (cells & idx & k & E & _).
  exists cells, idx, k. exact E.
Defined.

(** [draw] in sperm.js, frame after frame, while no node is active and the
    mesh is at rest (as [setup] leaves it): the mesh stays as it is, neither
    the reshuffle (as long as there is a cell), nor the mesh pass, nor the
    update of the cells throws (the drawing calls are not modelled), and every cell
    whose anchor slot exists converges to its anchor point, whatever the
    reshuffles: after enough frames every cell is within [eps] of it. *)
Theorem anchor_cells_settle {B} (nodes : list Node.t) (m : mesh) (cells : list (cell B)) (eps : R) :
  anyNodeActive nodes = false -> length m = rows_ -> Forall (fun row => length row = cols) m ->
  Forall (Forall at_rest) m -> cells <> [] ->
  (∀ c, c ∈ cells -> ∃ mx my, meshIdx c = Some (mx, my) /\ (mx < cols)%nat /\ (my < rows_)%nat) ->
  0 < eps ->
  ∃ N, ∀ shuffles : list (option (nat -> R * R)), (N <= length shuffles)%nat ->
    Forall (fun sh => ∀ d, sh = Some d -> ∀ n, 0 <= (d n).1 < 1 /\ 0 <= (d n).2 < 1) shuffles ->
    ∃ cells', anchor_frames nodes shuffles (m, cells) = Done (m, cells')
      /\ length cells' = length cells
      /\ ∀ c', c' ∈ cells' -> ∃ d, anchor_dist m c' = Some d /\ d <= eps.
Proof.
  intros Hn Hlen Hrect Hrest Hne Hidx Heps.
  set (Bd := energy_bound m cells).
  assert (Hc0 : ∀ c, c ∈ cells -> is_Some (anchor_point m c) /\ cell_energy m c <= Bd).
  { intros c Hin. split; [|apply energy_bound_ge, Hin].
    destruct (Hidx c Hin) as (mx & my & Hmi & Hx & Hy). unfold anchor_point. rewrite Hmi.
    apply rect_lookup; done. }
  pose proof cell_gap_pos as Hg. pose proof (energy_bound_nonneg m cells) as HB. fold Bd in HB.
  set (y := eps * eps * cell_gap / (Bd + 1)).
  assert (Hy : y * (Bd + 1) = eps * eps * cell_gap) by (unfold y; field; lra).
  assert (Hypos : 0 < y).
  { unfold y. apply Rdiv_lt_0_compat; [|lra].
    apply Rmult_lt_0_compat; [apply Rmult_lt_0_compat; lra|exact Hg]. }
  assert (Habs : Rabs 0.96 < 1) by (rewrite Rabs_right; lra).
  destruct (pow_lt_1_zero 0.96 Habs y Hypos) as [N HN].
  exists N. intros shuffles Hlen_s Hs.
  destruct (anchor_frames_decay nodes m Hn Hlen Hrect Hrest shuffles cells Bd Hs Hne Hc0)
    as (cells' & E & Hl & Hc').
  exists cells'. split; [exact E|]. split; [exact Hl|]. intros c' Hin.
  destruct (Hc' c' Hin) as [Ha He].
  destruct (anchor_dist_energy m c' Ha) as (d & Ed & Hd0 & Hd).
  exists d. split; [exact Ed|].
  pose proof (HN (length shuffles) Hlen_s) as Hpow.
  assert (H0 : 0 <= 0.96 ^ length shuffles) by (apply pow_le; lra).
  rewrite Rabs_right in Hpow by lra.
  assert (Hle : 0.96 ^ length shuffles * Bd <= y * (Bd + 1)) by nra.
  rewrite Hy in Hle.
  assert (d * d <= eps * eps) by nra.
  nra.
Qed.

Lemma anchor_cells_settle_witness :
  ∃ N : nat, ∀ shuffles : list (option (nat -> R * R)), (N <= length shuffles)%nat ->
    Forall (fun sh => ∀ d, sh = Some d -> ∀ n, 0 <= (d n).1 < 1 /\ 0 <= (d n).2 < 1) shuffles ->
    ∃ cells', anchor_frames [] shuffles (mesh0, [mkCell 0 0 0 0 tt (Some (0%nat, 0%nat)) 1 0 0])
      = Done (mesh0, cells').
Proof.
  destruct (mesh_grid_rect (-400) 400 (-250) 250) as [Hl Hr].
  destruct (anchor_cells_settle [] mesh0 [mkCell 0 0 0 0 tt (Some (0%nat, 0%nat)) 1 0 0] 1
    eq_refl Hl Hr (mesh_grid_at_rest _ _ _ _) ltac:(discriminate)) as [N HN].
  - intros c Hin. apply elem_of_cons in Hin as [->|Hin]; [|by apply not_elem_of_nil in Hin].
    exists 0%nat, 0%nat. split; [done|]. unfold cols, rows_. lia.
  - lra.
  - exists N. intros shuffles H1 H2. destruct (HN shuffles H1 H2) as (cells' & E & _). eauto.
Defined.
End AnchorTheorems.

Module ScatterExtraFacts.
Import Swarm ScatterSwarm MeshPass MeshPassFacts MeshSetup MeshSetupFacts SwarmFacts ScatterFacts
  AnchorFacts.
Local Open Scope R_scope.

(** [random(-a, a)] stays within [|a|], whatever the sign of [a]. *)
Lemma random2_sym (u lo hi : R) :
  0 <= u < 1 -> lo = - hi -> Rabs (random2 u lo hi) <= Rabs hi.
Proof.
  intros Hu ->. unfold random2, ltb. destruct (Rlt_dec hi (- hi)) as [Hlt|Hge].
  - rewrite (Rabs_left1 hi) by lra. apply Rabs_le. nra.
  - rewrite (Rabs_right hi) by lra. apply Rabs_le. nra.
Qed.

Section Placement.
Context {A : Type}.
Variable rng : nat -> R.
Variables width height : R.
Variable assets : list A.
Hypothesis Hr : ∀ n, 0 <= rng n < 1.

Definition in_box (cand : option (R * R)) : Prop :=
  match cand with
  | None => True
  | Some (cx, cy) => Rabs cx <= Rabs (width / 2 - marginX) /\ Rabs cy <= Rabs (height / 2 - marginY)
  end.

Lemma try_place_box fuel attempts k cand (cells : list (cell (option A))) :
  in_box cand -> in_box (try_place rng width height fuel attempts k cand cells).1.1.
Proof.
  revert attempts k cand. induction fuel as [|fuel IH]; intros attempts k cand Hc;
    cbn [try_place]; [exact Hc|].
  assert (Hbox : in_box (Some (random2 (rng k) (- width / 2 + marginX) (width / 2 - marginX),
                               random2 (rng (S k)) (- height / 2 + marginY) (height / 2 - marginY)))).
  { split; apply random2_sym; auto; unfold marginX, marginY; field. }
  destruct (attempts <? 30)%nat; [|exact Hc].
  destruct (conflict _ _ _); [apply IH, Hbox|exact Hbox].
Qed.

(** What [setup] gives every cell it pushes. *)
Definition placed_ok (cells : list (cell (option A))) : Prop :=
  ∀ i c, cells !! i = Some c ->
    img c = asset_for assets i /\ meshIdx c = None
    /\ Rabs (x c) <= Rabs (width / 2 - marginX) /\ Rabs (y c) <= Rabs (height / 2 - marginY)
    /\ -1 <= vx c <= 1 /\ -1 <= vy c <= 1 /\ 0.3 <= scale c <= 0.5
    /\ 0 <= angle c <= 2 * PI /\ -0.02 <= angleSpeed c <= 0.02.

Lemma place_cell_ok (st : scatter_state (A := A)) i :
  length st.1.1 = i -> placed_ok st.1.1 ->
  ∃ st', place_cell rng width height assets st i = Done st'
    /\ length st'.1.1 = S i /\ placed_ok st'.1.1.
Proof.
  destruct st as [[cells trace] k]. cbn [fst]. intros Hlen Hok. unfold place_cell.
  pose proof (try_place_defined rng width height 30 0 k None cells) as Hdef.
  pose proof (try_place_box 30 0 k None cells I) as Hbox.
  destruct (try_place rng width height 30 0 k None cells) as [[cand attempts] k1].
  destruct cand as [[cx cy]|]; [|exfalso; apply Hdef; [right; lia|reflexivity]].
  destruct Hbox as [Hx Hy].
  eexists. split; [reflexivity|]. cbn [fst]. rewrite length_app. simpl. split; [lia|].
  intros j c Hj. apply lookup_app_Some in Hj as [Hj|[Hj1 Hj]]; [exact (Hok j c Hj)|].
  apply list_lookup_singleton_Some in Hj as [Hj0 <-].
  assert (j = i) as -> by lia. cbn [img meshIdx x y vx vy scale angle angleSpeed].
  pose proof (random2_between (rng k1) (-1) 1 (Hr _) ltac:(lra)).
  pose proof (random2_between (rng (k1 + 1)%nat) (-1) 1 (Hr _) ltac:(lra)).
  pose proof (random2_between (rng (k1 + 2)%nat) 0.3 0.5 (Hr _) ltac:(lra)).
  pose proof PI_RGT_0.
  pose proof (random1_between (rng (k1 + 3)%nat) (2 * PI) (Hr _) ltac:(lra)).
  pose proof (random2_between (rng (k1 + 4)%nat) (-0.02) 0.02 (Hr _) ltac:(lra)).
  repeat split; auto; lra.
Qed.

Lemma fold_place_ok (n a : nat) (st : scatter_state (A := A)) :
  length st.1.1 = a -> placed_ok st.1.1 ->
  ∃ st', fold_left (fun o i => bind o (fun st => place_cell rng width height assets st i)
                                   (fun s => s)) (seq a n) (Done st) = Done st'
    /\ length st'.1.1 = (a + n)%nat /\ placed_ok st'.1.1.
Proof.
  revert a st. induction n as [|n IH]; intros a st Hl Hok.
  - exists st. rewrite Nat.add_0_r. done.
  - cbn [seq fold_left]. cbn [bind].
    destruct (place_cell_ok st a Hl Hok) as (st1 & E1 & Hl1 & Hok1). rewrite E1.
    destruct (IH (S a) st1 Hl1 Hok1) as (st' & E' & Hl' & Hok').
    exists st'. split; [exact E'|]. split; [lia|exact Hok'].
Qed.
End Placement.

Lemma pow96_between (n : nat) : 0 <= 0.96 ^ n <= 1.
Proof.
  induction n as [|n IH]; cbn [pow]; [lra|]. split; nra.
Qed.

Lemma iter_scatter_free {B} (nodes : list Node.t) (n : nat) (c : cell B) :
  anyNodeActive nodes = false ->
  let c' := Nat.iter n (scatter_step nodes) c in
  vx c' = 0.96 ^ n * vx c /\ vy c' = 0.96 ^ n * vy c
  /\ x c' = x c + 24 * vx c * (1 - 0.96 ^ n) /\ y c' = y c + 24 * vy c * (1 - 0.96 ^ n)
  /\ angle c' = angle c + INR n * angleSpeed c /\ angleSpeed c' = angleSpeed c
  /\ img c' = img c /\ meshIdx c' = meshIdx c /\ scale c' = scale c.
Proof.
  intros Hn. apply anyNodeActive_false in Hn. cbv zeta.
  induction n as [|n IH].
  - change (Nat.iter 0 (scatter_step nodes) c) with c. cbn [pow INR].
    repeat split; try reflexivity; ring.
  - rewrite Nat.iter_succ. set (c0 := Nat.iter n (scatter_step nodes) c) in *.
    destruct IH as (Hvx & Hvy & Hx & Hy & Ha & Has & Hi & Hm & Hs).
    unfold scatter_step. rewrite (cell_pull_nonpos c0 nodes (0, 0) Hn).
    cbn [x y vx vy img meshIdx scale angle angleSpeed pow].
    rewrite Hvx, Hvy, Hx, Hy, Ha, Has, Hi, Hm, Hs, S_INR.
    repeat split; try reflexivity; decimals; field.
Qed.
Lemma cell_pull_fields {B} (c d : cell B) :
  x c = x d -> y c = y d -> cell_pull c = cell_pull d.
Proof. intros Hx Hy. unfold cell_pull. rewrite Hx, Hy. reflexivity. Qed.

(** The fields the cell loop writes depend on the fields other than [img]. *)
Lemma scatter_step_fields {B} (nodes : list Node.t) (c d : cell B) :
  other_fields c = other_fields d ->
  other_fields (scatter_step nodes c) = other_fields (scatter_step nodes d).
Proof.
  unfold other_fields. intros [= Hx Hy Hvx Hvy Hm Hs Ha Has].
  unfold scatter_step. rewrite (cell_pull_fields c d Hx Hy).
  destruct (fold_left (cell_pull d) nodes (0, 0)) as [fx fy].
  cbn [x y vx vy meshIdx scale angle angleSpeed]. by rewrite Hx, Hy, Hvx, Hvy, Hm, Hs, Ha, Has.
Qed.

Lemma scatter_step_img {B} (nodes : list Node.t) (c : cell B) :
  img (scatter_step nodes c) = img c.
Proof. unfold scatter_step. by destruct (fold_left (cell_pull c) nodes (0, 0)). Qed.

Lemma iter_step_fields {B} (nodes : list Node.t) (n : nat) (c d : cell B) :
  other_fields c = other_fields d ->
  other_fields (Nat.iter n (scatter_step nodes) c) = other_fields (Nat.iter n (scatter_step nodes) d).
Proof.
  intros H. induction n as [|n IH]; [exact H|].
  rewrite !Nat.iter_succ. by apply scatter_step_fields.
Qed.

Lemma fmap_fields {B} (f : cell B -> cell B) (l1 l2 : list (cell B)) :
  (∀ c d, other_fields c = other_fields d -> other_fields (f c) = other_fields (f d)) ->
  other_fields <$> l1 = other_fields <$> l2 ->
  other_fields <$> (f <$> l1) = other_fields <$> (f <$> l2).
Proof.
  intros Hf. revert l2. induction l1 as [|c l1 IH]; intros [|d l2] H; try discriminate; [done|].
  cbn [fmap list_fmap] in H |- *.
  assert (Hcd : other_fields c = other_fields d) by exact (f_equal (hd (other_fields c)) H).
  assert (Hl : other_fields <$> l1 = other_fields <$> l2) by exact (f_equal tail H).
  f_equal; [by apply Hf|]. by apply IH.
Qed.

(** One frame of sperm2.js on a 14 x 20 mesh: it runs without throwing,
    the reshuffle permutes the assets among the cells and the cell loop
    moves every cell as [scatter_step]. *)
Lemma scatter_frame_fields {B} (nodes : list Node.t) (sh : option (nat -> R * R))
  (m : mesh) (cells : list (cell B)) :
  draws_ok sh -> cells <> [] -> length m = rows_ -> Forall (fun row => length row = cols) m ->
  ∃ cells', scatter_frame nodes sh (m, cells) = Done (pointwise 0.04 nodes m, cells')
    /\ img <$> cells' ≡ₚ img <$> cells
    /\ other_fields <$> cells' = other_fields <$> (scatter_step nodes <$> cells).
Proof.
  intros Hd Hne Hlen Hrect.
  destruct (reshuffle_step sh cells Hd Hne) as (cs & Ecs & [Himg Hoth]).
  unfold scatter_frame. rewrite Ecs, (mesh_step_pointwise 0.04 nodes m Hlen Hrect).
  exists (scatter_cells nodes cs). split; [reflexivity|]. split.
  - unfold scatter_cells. rewrite <- list_fmap_compose.
    rewrite (list_fmap_ext (img ∘ scatter_step nodes) img cs) by (intros; apply scatter_step_img).
    exact Himg.
  - apply fmap_fields; [apply scatter_step_fields|exact Hoth].
Qed.

Lemma scatter_frames_fields {B} (nodes : list Node.t) (shuffles : list (option (nat -> R * R)))
  (m : mesh) (cells : list (cell B)) :
  Forall draws_ok shuffles -> cells <> [] ->
  length m = rows_ -> Forall (fun row => length row = cols) m ->
  ∃ m' cells', scatter_frames nodes shuffles (m, cells) = Done (m', cells')
    /\ img <$> cells' ≡ₚ img <$> cells
    /\ other_fields <$> cells' = other_fields <$> (Nat.iter (length shuffles) (scatter_step nodes) <$> cells).
Proof.
  revert m cells. induction shuffles as [|sh rest IH]; intros m cells Hs Hne Hlen Hrect.
  - exists m, cells. split; [done|]. split; [done|]. cbn [length]. f_equal. symmetry. apply list_fmap_id.
  - apply Forall_cons in Hs as [Hsh Hs].
    destruct (scatter_frame_fields nodes sh m cells Hsh Hne Hlen Hrect) as (cs1 & E1 & Hi1 & Ho1).
    destruct (MeshConvergence.pointwise_rect 0.04 nodes m Hlen Hrect) as [Hlen1 Hrect1].
    assert (Hne1 : cs1 <> []).
    { intros ->. apply Hne. cbn in Ho1. symmetry in Ho1.
      apply fmap_nil_inv in Ho1. by apply fmap_nil_inv in Ho1. }
    destruct (IH _ cs1 Hs Hne1 Hlen1 Hrect1) as (m' & cells' & E' & Hi' & Ho').
    exists m', cells'. cbn [scatter_frames]. rewrite E1. cbn [bind]. split; [exact E'|].
    split; [by rewrite Hi'|]. rewrite Ho'.
    rewrite (fmap_fields _ cs1 (scatter_step nodes <$> cells)) by (auto using iter_step_fields).
    f_equal. rewrite <- list_fmap_compose. apply list_fmap_ext. intros i c _.
    cbn [length compose]. by rewrite Nat.iter_succ_r.
Qed.
End ScatterExtraFacts.

Module ScatterExtraTheorems.
Import Swarm ScatterSwarm MeshPass MeshSpec MeshSetup AnchorFacts ScatterExtraFacts.
Local Open Scope R_scope.

(** With every [random()] draw in [[0, 1)], the placement loop of [setup]
    in sperm2.js gives cell [i] the asset [assets[i % assets.length]]
    ([undefined] for every cell when there is no asset) and no mesh slot, a
    position within the canvas minus the 80 margins ([|x| <= |width/2 - 80|],
    also when the canvas is narrower than the margins and [random] swaps its
    bounds), [vx] and [vy] in [[-1, 1]], [scale] in [[0.3, 0.5]], [angle] in
    [[0, 2 PI]] and [angleSpeed] in [[-0.02, 0.02]]. *)
Theorem scatter_setup_fields {A} (rng : nat -> R) (width height : R) (assets : list A) :
  (∀ n, 0 <= rng n < 1) ->
  ∃ cells trace k, scatter_setup rng width height assets = Done (cells, trace, k)
    /\ ∀ i c, cells !! i = Some c ->
      img c = asset_for assets i /\ (assets <> [] -> img c = assets !! (i mod length assets)%nat
                                                      /\ is_Some (img c))
      /\ meshIdx c = None
      /\ Rabs (x c) <= Rabs (width / 2 - marginX) /\ Rabs (y c) <= Rabs (height / 2 - marginY)
      /\ -1 <= vx c <= 1 /\ -1 <= vy c <= 1 /\ 0.3 <= scale c <= 0.5
      /\ 0 <= angle c <= 2 * PI /\ -0.02 <= angleSpeed c <= 0.02.
Proof.
  intros Hr.
  destruct (fold_place_ok rng width height assets Hr desiredAssetCount 0 ([], [], 0%nat)
    eq_refl ltac:(intros i c Hi; cbn in Hi; by rewrite lookup_nil in Hi))
    as ([[cells trace] k] & E & _ & Hok).
  exists cells, trace, k. split; [exact E|]. intros i c Hi.
  destruct (Hok i c Hi) as (Himg & Hrest). split; [exact Himg|]. split; [|exact Hrest].
  intros Hne. rewrite Himg. unfold asset_for.
  destruct assets as [|a0 l] eqn:Ea; [congruence|]. split; [reflexivity|].
  apply lookup_lt_is_Some_2. apply Nat.mod_upper_bound. simpl. lia.
Qed.

Lemma scatter_setup_fields_witness :
  (∀ n : nat, 0 <= (fun _ : nat => 0) n < 1) /\
  ∃ cells trace k, scatter_setup (fun _ : nat => 0) 800 600 [tt] = Done (cells, trace, k).
Proof.
  assert (Hr : ∀ n : nat, 0 <= (fun _ : nat => 0) n < 1) by (intros; lra).
  split; [exact Hr|].
  destruct (scatter_setup_fields (fun _ : nat => 0) 800 600 [tt] Hr) as (cells & trace & k & E & _).
  exists cells, trace, k. exact E.
Defined.

(** Whole frames of [draw] in sperm2.js on a 14 x 20 mesh while no node is
    active, with every [random()] draw of the reshuffles in [[0, 1)]: the
    frames run without throwing; the reshuffles only permute the assets
    among the cells; and after [n] frames the cell at index [j] has its
    initial velocity damped by [0.96^n], its position at
    [x + 24 vx (1 - 0.96^n)] (so it never drifts more than [24 |vx|] from
    where it was), its angle turned by [n angleSpeed], and its slot and
    scale unchanged. *)
Theorem scatter_frames_drift {B} (nodes : list Node.t) (m : mesh)
  (shuffles : list (option (nat -> R * R))) (cells : list (cell B)) (n j : nat) (c : cell B) :
  anyNodeActive nodes = false -> length m = rows_ -> Forall (fun row => length row = cols) m ->
  Forall draws_ok shuffles -> length shuffles = n -> cells !! j = Some c ->
  ∃ m' cells' c', scatter_frames nodes shuffles (m, cells) = Done (m', cells')
    /\ img <$> cells' ≡ₚ img <$> cells /\ cells' !! j = Some c'
    /\ vx c' = 0.96 ^ n * vx c /\ vy c' = 0.96 ^ n * vy c
    /\ x c' = x c + 24 * vx c * (1 - 0.96 ^ n) /\ y c' = y c + 24 * vy c * (1 - 0.96 ^ n)
    /\ Rabs (x c' - x c) <= 24 * Rabs (vx c) /\ Rabs (y c' - y c) <= 24 * Rabs (vy c)
    /\ angle c' = angle c + INR n * angleSpeed c /\ angleSpeed c' = angleSpeed c
    /\ meshIdx c' = meshIdx c /\ scale c' = scale c.
Proof.
  intros Hn Hlen Hrect Hs <- Hj.
  assert (Hne : cells <> []) by (intros ->; by rewrite lookup_nil in Hj).
  destruct (scatter_frames_fields nodes shuffles m cells Hs Hne Hlen Hrect)
    as (m' & cells' & E & Hi & Ho).
  assert (Hj' : (other_fields <$> cells') !! j
                = Some (other_fields (Nat.iter (length shuffles) (scatter_step nodes) c)))
    by (rewrite Ho, !list_lookup_fmap, Hj; reflexivity).
  rewrite list_lookup_fmap in Hj'.
  destruct (cells' !! j) as [c'|] eqn:Ec'; [|discriminate].
  injection Hj' as Ex Ey Evx Evy Em Es Ea Eas.
  exists m', cells', c'. split; [exact E|]. split; [exact Hi|]. split; [exact Ec'|].
  set (k := length shuffles) in *.
  destruct (iter_scatter_free nodes k c Hn) as (Hvx & Hvy & Hx & Hy & Ha & Has & _ & Hm & Hsc).
  set (c1 := Nat.iter k (scatter_step nodes) c) in *.
  rewrite Ex, Ey, Evx, Evy, Em, Es, Ea, Eas.
  pose proof (pow96_between k) as Hp.
  assert (Hd : ∀ v : R, Rabs (24 * v * (1 - 0.96 ^ k)) <= 24 * Rabs v).
  { intros v. unfold Rabs. destruct (Rcase_abs (24 * v * (1 - 0.96 ^ k)));
      destruct (Rcase_abs v); nra. }
  split; [exact Hvx|]. split; [exact Hvy|]. split; [exact Hx|]. split; [exact Hy|].
  rewrite Hx, Hy. split; [replace (x c + 24 * vx c * (1 - 0.96 ^ k) - x c)
    with (24 * vx c * (1 - 0.96 ^ k)) by ring; apply Hd|].
  split; [replace (y c + 24 * vy c * (1 - 0.96 ^ k) - y c)
    with (24 * vy c * (1 - 0.96 ^ k)) by ring; apply Hd|].
  auto.
Qed.

Lemma scatter_frames_drift_witness :
  let m := repeat (repeat displaced_point cols) rows_ in
  let sh := [Some (fun _ : nat => (0, 0.5)); None; Some (fun _ : nat => (0.5, 0))] in
  let cells := [mkCell 0 0 1 0 tt None 1 0 0.01; mkCell 5 5 0 1 tt None 1 0 0.01] in
  (anyNodeActive [] = false /\ length m = rows_ /\ Forall (fun row => length row = cols) m
   /\ Forall draws_ok sh /\ length sh = 3%nat /\ cells !! 0%nat = Some (mkCell 0 0 1 0 tt None 1 0 0.01))
  /\ ∃ m' cells', scatter_frames [] sh (m, cells) = Done (m', cells').
Proof.
  intros m sh cells.
  assert (H1 : anyNodeActive [] = false) by reflexivity.
  assert (H2 : length m = rows_) by reflexivity.
  assert (H3 : Forall (fun row => length row = cols) m) by (repeat constructor).
  assert (H4 : Forall draws_ok sh).
  { apply Forall_forall. intros o Ho d Hd k. unfold sh in Ho.
    repeat (apply elem_of_cons in Ho as [->|Ho]); [..|by apply not_elem_of_nil in Ho];
      try discriminate; injection Hd as <-; cbn; lra. }
  assert (H5 : length sh = 3%nat) by reflexivity.
  assert (H6 : cells !! 0%nat = Some (mkCell 0 0 1 0 tt None 1 0 0.01)) by reflexivity.
  split; [repeat split; assumption|].
  destruct (scatter_frames_drift [] m sh cells 3 0 _ H1 H2 H3 H4 H5 H6)
    as (m' & cells' & c' & E & _). exists m', cells'. exact E.
Defined.
End ScatterExtraTheorems.

Module TimerFacts.
Import ShuffleTimer.
Local Open Scope R_scope.

Lemma ordered_tail (fr : R * R) (rest : list (R * R)) : ordered (fr :: rest) -> ordered rest.
Proof. intros H i f Hf. exact (H (S i) f Hf). Qed.

Lemma ordered_head (a b : R) (rest : list (R * R)) :
  ordered ((a, b) :: rest) -> a <= b /\ ∀ g, rest !! 0%nat = Some g -> b <= g.1.
Proof. intros H. exact (H 0%nat (a, b) eq_refl). Qed.

(** A frame that reshuffles reads [millis()] more than the interval after
    the [lastShuffle] the run started from. *)
Lemma shuffle_after_last (frames : list (R * R)) (last : R) (j : nat) (f : R * R) :
  ordered frames -> (∀ g, frames !! 0%nat = Some g -> last <= g.1) ->
  shuffle_frames last frames !! j = Some true -> frames !! j = Some f ->
  f.1 - last > shuffleInterval.
Proof.
  revert last j. induction frames as [|[a b] rest IH]; intros last j Ho Hl Hj Hf;
    [discriminate|].
  destruct (ordered_head a b rest Ho) as [Hab Hnext].
  pose proof (Hl (a, b) eq_refl) as Hla. cbn [fst] in Hla.
  cbn [shuffle_frames] in Hj. unfold ltb in Hj.
  destruct (Rlt_dec shuffleInterval (a - last)) as [Hlt|Hge]; destruct j as [|j].
  - cbn in Hf. injection Hf as <-. cbn [fst]. lra.
  - cbn in Hj, Hf. pose proof (IH b j (ordered_tail _ _ Ho) Hnext Hj Hf). lra.
  - discriminate.
  - cbn in Hj, Hf. apply (IH last j (ordered_tail _ _ Ho)); [|exact Hj|exact Hf].
    intros g Hg. pose proof (Hnext g Hg). lra.
Qed.

Lemma length_shuffle_frames (frames : list (R * R)) (last : R) :
  length (shuffle_frames last frames) = length frames.
Proof.
  revert last. induction frames as [|[a b] rest IH]; intros last; cbn; [done|].
  destruct (ltb _ _); cbn; f_equal; apply IH.
Qed.

Lemma shuffles_spaced (frames : list (R * R)) (last : R) (i j : nat) :
  ordered frames -> (i < j)%nat ->
  shuffle_frames last frames !! i = Some true -> shuffle_frames last frames !! j = Some true ->
  ∃ fi fj, frames !! i = Some fi /\ frames !! j = Some fj /\ fj.1 - fi.1 > shuffleInterval.
Proof.
  revert last i j. induction frames as [|[a b] rest IH]; intros last i j Ho Hij Hi Hj;
    [discriminate|].
  destruct (ordered_head a b rest Ho) as [Hab Hnext].
  destruct j as [|j]; [lia|].
  destruct (lookup_lt_is_Some_2 rest j) as [fj Hfj].
  { apply lookup_lt_Some in Hj. rewrite length_shuffle_frames in Hj. cbn [length] in Hj. lia. }
  cbn [shuffle_frames] in Hi, Hj. unfold ltb in Hi, Hj.
  destruct (Rlt_dec shuffleInterval (a - last)) as [Hlt|Hge]; destruct i as [|i].
  - exists (a, b), fj. split; [done|]. split; [exact Hfj|].
    cbn in Hj. pose proof (shuffle_after_last rest b j fj (ordered_tail _ _ Ho) Hnext Hj Hfj).
    cbn [fst]. lra.
  - cbn in Hi, Hj. apply (IH b i j (ordered_tail _ _ Ho)); [lia|exact Hi|exact Hj].
  - discriminate.
  - cbn in Hi, Hj. apply (IH last i j (ordered_tail _ _ Ho)); [lia|exact Hi|exact Hj].
Qed.
End TimerFacts.

Module ReachTheorems.
Import Swarm ScatterSwarm.
Local Open Scope R_scope.

Lemma fold_skip {C T} (f : T -> C -> T) (l1 l2 : list C) (nd : C) (acc : T) :
  (∀ a, f a nd = a) -> fold_left f (l1 ++ nd :: l2) acc = fold_left f (l1 ++ l2) acc.
Proof. intros H. rewrite !fold_left_app. cbn [fold_left]. by rewrite H. Qed.

(** The mesh loop of [draw] (part_000, sperm.js, sperm2.js): a node that
    is inactive ([force <= 0]) or at distance 180 or more from a point has
    no effect on that point's step; it can be left out of [nodes]. *)
Theorem mesh_node_out_of_reach (k_rest : R) (l1 l2 : list Node.t) (nd : Node.t) (p : GridPoint.t) :
  Node.force nd <= 0 \/ 180 <= dist (GridPoint.x p) (GridPoint.y p) (Node.x nd) (Node.y nd) ->
  Mesh.step_point k_rest (l1 ++ nd :: l2) p = Mesh.step_point k_rest (l1 ++ l2) p.
Proof.
  intros Hnd. unfold Mesh.step_point. rewrite fold_skip; [reflexivity|].
  intros [fx fy]. unfold Mesh.pull, ltb.
  destruct (Rlt_dec 0 (Node.force nd)); destruct (Rlt_dec _ 180); cbn [andb];
    [lra|reflexivity|reflexivity|reflexivity].
Qed.

Lemma mesh_node_out_of_reach_witness :
  Node.force (Node.mk 0 0 0) <= 0 /\
  Mesh.step_point 0.08 ([] ++ Node.mk 0 0 0 :: []) (GridPoint.mk 1 1 0 0 0 0)
  = Mesh.step_point 0.08 ([] ++ []) (GridPoint.mk 1 1 0 0 0 0).
Proof.
  assert (H : Node.force (Node.mk 0 0 0) <= 0) by (cbn; lra).
  split; [exact H|]. exact (mesh_node_out_of_reach 0.08 [] [] _ _ (or_introl H)).
Defined.

(** The cell loop of [draw] in sperm2.js: a node that is inactive or at
    distance 180 or more from a cell does not pull that cell. *)
Theorem cell_node_out_of_reach {B} (l1 l2 : list Node.t) (nd : Node.t) (c : cell B) :
  Node.force nd <= 0 \/ 180 <= dist (x c) (y c) (Node.x nd) (Node.y nd) ->
  scatter_step (l1 ++ nd :: l2) c = scatter_step (l1 ++ l2) c.
Proof.
  intros Hnd. unfold scatter_step. rewrite fold_skip; [reflexivity|].
  intros [fx fy]. unfold cell_pull, ltb.
  destruct (Rlt_dec 0 (Node.force nd)); destruct (Rlt_dec _ 180); cbn [andb];
    [lra|reflexivity|reflexivity|reflexivity].
Qed.

Lemma cell_node_out_of_reach_witness :
  Node.force (Node.mk 0 0 0) <= 0 /\
  scatter_step ([] ++ Node.mk 0 0 0 :: []) (mkCell 0 0 0 0 tt None 1 0 0)
  = scatter_step ([] ++ []) (mkCell 0 0 0 0 tt None 1 0 0).
Proof.
  assert (H : Node.force (Node.mk 0 0 0) <= 0) by (cbn; lra).
  split; [exact H|].
  exact (cell_node_out_of_reach [] [] _ (mkCell 0 0 0 0 tt None 1 0 0) (or_introl H)).
Defined.
End ReachTheorems.

Module TimerTheorems.
Import ShuffleTimer TimerFacts.
Local Open Scope R_scope.

(** The reshuffle timer of [draw] (sperm.js, sperm2.js), with [lastShuffle]
    starting at 0 and [millis()] never going back: the first reshuffle
    happens at a reading above 111 ms, and any two frames that reshuffle
    test [millis()] more than [shuffleInterval] = 111 ms apart. *)
Theorem reshuffles_spaced (frames : list (R * R)) :
  ordered frames -> (∀ g, frames !! 0%nat = Some g -> 0 <= g.1) ->
  (∀ j f, shuffle_frames 0 frames !! j = Some true -> frames !! j = Some f ->
     f.1 > shuffleInterval)
  /\ (∀ i j, (i < j)%nat ->
     shuffle_frames 0 frames !! i = Some true -> shuffle_frames 0 frames !! j = Some true ->
     ∃ fi fj, frames !! i = Some fi /\ frames !! j = Some fj /\ fj.1 - fi.1 > shuffleInterval).
Proof.
  intros Ho H0. split.
  - intros j f Hj Hf. pose proof (shuffle_after_last frames 0 j f Ho H0 Hj Hf). lra.
  - intros i j Hij Hi Hj. exact (shuffles_spaced frames 0 i j Ho Hij Hi Hj).
Qed.

Lemma reshuffles_spaced_witness :
  let frames := [(200, 201); (250, 250); (400, 400)] in
  ordered frames /\ (∀ g, frames !! 0%nat = Some g -> 0 <= g.1) /\
  ∀ i j, (i < j)%nat ->
    shuffle_frames 0 frames !! i = Some true -> shuffle_frames 0 frames !! j = Some true ->
    ∃ fi fj, frames !! i = Some fi /\ frames !! j = Some fj /\ fj.1 - fi.1 > shuffleInterval.
Proof.
  cbv zeta.
  assert (Ho : ordered [(200, 201); (250, 250); (400, 400)]).
  { intros [|[|[|i]]] f Hf; cbn in Hf; try discriminate; injection Hf as <-; cbn [fst snd];
      (split; [lra|]); intros g Hg; cbn in Hg; try discriminate; injection Hg as <-; cbn; lra. }
  assert (H0 : ∀ g, [(200, 201); (250, 250); (400, 400)] !! 0%nat = Some g -> 0 <= g.1).
  { intros g Hg. cbn in Hg. injection Hg as <-. cbn. lra. }
  split; [exact Ho|]. split; [exact H0|].
  exact (proj2 (reshuffles_spaced _ Ho H0)).
Defined.
End TimerTheorems.

